(** * bananapod-srv: a shallow embedding of [main.go]

    The archive server keeps two in-memory caches (document records and
    thumbnails, both keyed by the FNV-1a fingerprint of a path) and
    answers four HTTP routes.  This development embeds the handlers
    [ProcessDocument], [AllDocs], [Categories] and [DocThumbnail] as
    programs of a small state-and-failure monad over an explicit file
    system, and states the properties of the specification about them.

    Conventions.
    - Go strings and byte slices are [string] (sequences of 8-bit
      characters); Go integers are [Z], unsigned 64-bit arithmetic is
      written out with [mod 2^64].
    - A nil pointer is [None]; reading a field through it panics.
    - The two mutexes only guard single map operations; handlers are
      modelled as run one after the other.
    - Library calls ([filepath.Glob], [fmt.Sscanf], [strconv.ParseUint],
      [encoding/json], [path.Base], [hash/fnv]) are modelled after the Go
      standard library, bytewise; [sort.Sort] is any function with the
      contract the package documents.
    - [Glob] joins a directory and a name as [path.Join] does when the
      directory is a clean path, which the archive root is taken to be. *)

From Stdlib Require Import ZArith Lia List Permutation Sorted Ascii String.
From stdpp Require Import base option list strings gmap fin_maps.

Local Open Scope Z_scope.
Set Warnings "-register-all".

(** ** Strings as byte lists *)

Module Str.

Definition bytes (s : string) : list ascii := list_ascii_of_string s.
Definition of_bytes (l : list ascii) : string := string_of_list_ascii l.

Definition code (c : ascii) : Z := Z.of_N (N_of_ascii c).

Definition chr (z : Z) : ascii := ascii_of_N (Z.to_N z).

(** [strings.HasPrefix]. *)
Fixpoint has_prefix (p l : list ascii) : bool :=
  match p, l with
  | [], _ => true
  | a :: p', b :: l' => Ascii.eqb a b && has_prefix p' l'
  | _ :: _, [] => false
  end.

Definition HasPrefix (s prefix : string) : bool :=
  has_prefix (bytes prefix) (bytes s).

(** Removes [p] from the front of [l] when it is there. *)
Fixpoint strip_prefix (p l : list ascii) : option (list ascii) :=
  match p, l with
  | [], _ => Some l
  | a :: p', b :: l' => if Ascii.eqb a b then strip_prefix p' l' else None
  | _ :: _, [] => None
  end.

Definition slash : ascii := "/"%char.

Definition is_slash (c : ascii) : bool := Ascii.eqb c slash.

Definition has_slash (l : list ascii) : bool := existsb is_slash l.

(** [strings.ContainsAny]. *)
Definition contains_any (l chars : list ascii) : bool :=
  existsb (fun c => existsb (Ascii.eqb c) chars) l.

(** Decimal rendering of a non-negative integer ([%v] on a [uint64]). *)
Fixpoint decimal_go (fuel : nat) (n : Z) (acc : list ascii) : list ascii :=
  match fuel with
  | O => acc
  | S fuel' =>
      let acc' := chr (48 + n mod 10) :: acc in
      if n <? 10 then acc' else decimal_go fuel' (n / 10) acc'
  end.

Definition decimal (n : Z) : string :=
  of_bytes (decimal_go (S (Z.to_nat (Z.log2 n))) n []).

End Str.

(** ** [hash/fnv]: the 64-bit FNV-1a fingerprint of a path *)

Definition two64 : Z := 2 ^ 64.
Definition offset64 : Z := 14695981039346656037.
Definition prime64 : Z := 1099511628211.

Definition fnv64a_step (h : Z) (c : ascii) : Z :=
  (Z.lxor h (Str.code c) * prime64) mod two64.

(** [h := fnv.New64a(); h.Write([]byte(s)); h.Sum64()]. *)
Definition fnv64a (s : string) : Z :=
  fold_left fnv64a_step (Str.bytes s) offset64.

(** ** [strconv.ParseUint(s, 10, 64)] *)

Inductive NumError := ErrSyntax | ErrRange.

Definition is_digit (c : ascii) : bool :=
  (48 <=? Str.code c) && (Str.code c <=? 57).

Definition digit_val (c : ascii) : Z := Str.code c - 48.

Definition maxUint64 : Z := two64 - 1.

(** The digit loop of [ParseUint]: [n] is the value so far; the result is
    the value together with the error, as Go returns both. *)
Fixpoint parse_digits (l : list ascii) (n : Z) : Z * option NumError :=
  match l with
  | [] => (n, None)
  | c :: l' =>
      if negb (is_digit c) then (0, Some ErrSyntax)
      else if two64 <=? n * 10 then (maxUint64, Some ErrRange)
      else if two64 <=? n * 10 + digit_val c then (maxUint64, Some ErrRange)
      else parse_digits l' (n * 10 + digit_val c)
  end.

Definition ParseUint (s : string) : Z * option NumError :=
  match Str.bytes s with
  | [] => (0, Some ErrSyntax)
  | l => parse_digits l 0
  end.

(** ** [path.Base] *)

Module Path.

(** Drops the trailing slashes of a reversed path. *)
Fixpoint drop_slashes (r : list ascii) : list ascii :=
  match r with
  | c :: r' => if Str.is_slash c then drop_slashes r' else r
  | [] => []
  end.

(** The reversed last element: the characters before the first slash of
    a reversed path. *)
Fixpoint until_slash (r : list ascii) : list ascii :=
  match r with
  | c :: r' => if Str.is_slash c then [] else c :: until_slash r'
  | [] => []
  end.

Definition Base (p : string) : string :=
  match Str.bytes p with
  | [] => "."
  | l =>
      match until_slash (drop_slashes (rev l)) with
      | [] => "/"
      | e => Str.of_bytes (rev e)
      end
  end.

End Path.

(** ** [fmt.Sscanf(name, "%d_%d_%d_%d_%d_%d", ...)]

    Each [%d] skips leading blanks (a newline is an error), accepts one
    optional sign and at least one decimal digit, and must fit in 64
    bits; each literal underscore must be the next input character.
    Whatever follows the sixth number is left unread.  Blanks are the
    ASCII ones. *)

Module Scan.

Definition is_blank (c : ascii) : bool :=
  let n := Str.code c in
  (n =? 9) || (n =? 11) || (n =? 12) || (n =? 13) || (n =? 32).

Definition is_newline (c : ascii) : bool := Str.code c =? 10.

(** [SkipSpace] of [Sscanf]; [None] is the "unexpected newline" error. *)
Fixpoint SkipSpace (l : list ascii) : option (list ascii) :=
  match l with
  | c :: l' =>
      if is_newline c then None
      else if is_blank c then SkipSpace l'
      else Some l
  | [] => Some []
  end.

Fixpoint take_digits (l : list ascii) : list ascii * list ascii :=
  match l with
  | c :: l' =>
      if is_digit c then
        let '(ds, rest) := take_digits l' in (c :: ds, rest)
      else ([], l)
  | [] => ([], [])
  end.

Definition digits_value (ds : list ascii) : Z :=
  fold_left (fun n c => n * 10 + digit_val c) ds 0.

Definition minInt64 : Z := - 2 ^ 63.
Definition maxInt64 : Z := 2 ^ 63 - 1.

(** [scanInt] for the verb [%d] into an [int]. *)
Definition scanInt (l : list ascii) : option (Z * list ascii) :=
  match SkipSpace l with
  | None => None
  | Some [] => None
  | Some (c :: l1) =>
      let '(neg, l2) :=
        if Ascii.eqb c "-" then (true, l1)
        else if Ascii.eqb c "+" then (false, l1)
        else (false, c :: l1) in
      match take_digits l2 with
      | ([], _) => None
      | (ds, rest) =>
          let v := if neg then - digits_value ds else digits_value ds in
          if (minInt64 <=? v) && (v <=? maxInt64) then Some (v, rest)
          else None
      end
  end.

(** A literal character of the format. *)
Definition literal (c : ascii) (l : list ascii) : option (list ascii) :=
  match l with
  | c' :: l' => if Ascii.eqb c c' then Some l' else None
  | [] => None
  end.

(** [k] further [_%d] items after the first number. *)
Fixpoint more_ints (k : nat) (l : list ascii) : option (list Z) :=
  match k with
  | O => Some []
  | S k' =>
      match literal "_" l with
      | None => None
      | Some l1 =>
          match scanInt l1 with
          | None => None
          | Some (v, l2) =>
              match more_ints k' l2 with
              | None => None
              | Some vs => Some (v :: vs)
              end
          end
      end
  end.

(** The six integers when [err == nil && numparsed == 6]. *)
Definition Sscanf6 (name : string) : option (Z * Z * Z * Z * Z * Z) :=
  match scanInt (Str.bytes name) with
  | None => None
  | Some (year, l) =>
      match more_ints 5 l with
      | Some [month; day; hour; minute; second] =>
          Some (year, month, day, hour, minute, second)
      | _ => None
      end
  end.

End Scan.

(** ** [time.Time]

    An instant is its number of seconds since the Unix epoch, scaled to
    nanoseconds; a location is a fixed offset east of UTC, in seconds. *)

Module Time.

Definition t := Z.

Definition nanos : Z := 1000000000.

(** Days from 1970-01-01 to the first of month [m] (1..12) of year [y]
    in the proleptic Gregorian calendar. *)
Definition days_from_civil (y m : Z) : Z :=
  let y' := if m <=? 2 then y - 1 else y in
  let era := y' / 400 in
  let yoe := y' - era * 400 in
  let mp := (m + 9) mod 12 in
  let doy := (153 * mp + 2) / 5 in
  let doe := yoe * 365 + yoe / 4 - yoe / 100 + doy in
  era * 146097 + doe - 719468.

(** [time.Date(year, month, day, hour, min, sec, 0, loc)]: the month is
    normalised into the year, the other fields overflow linearly. *)
Definition Date (year month day hour minute second offset : Z) : t :=
  let m0 := month - 1 in
  let y := year + m0 / 12 in
  let m := m0 mod 12 + 1 in
  let days := days_from_civil y m + (day - 1) in
  (days * 86400 + hour * 3600 + minute * 60 + second - offset) * nanos.

(** [t.After(u)]. *)
Definition After (a u : t) : bool := u <? a.

End Time.

(** ** [base64.StdEncoding.EncodeToString] *)

Module Base64.

Definition alphabet : list ascii :=
  Str.bytes "ABCDEFGHIJKLMNOPQRSTUVWXYZabcdefghijklmnopqrstuvwxyz0123456789+/".

Definition sextet (n : Z) : ascii :=
  nth (Z.to_nat (Z.land n 63)) alphabet "="%char.

Definition pad : ascii := "="%char.

Fixpoint encode (fuel : nat) (l : list ascii) : list ascii :=
  match fuel with
  | O => []
  | S fuel' =>
      match l with
      | [] => []
      | [a] =>
          let v := Z.shiftl (Str.code a) 16 in
          [sextet (Z.shiftr v 18); sextet (Z.shiftr v 12); pad; pad]
      | [a; b] =>
          let v := Z.lor (Z.shiftl (Str.code a) 16) (Z.shiftl (Str.code b) 8) in
          [sextet (Z.shiftr v 18); sextet (Z.shiftr v 12);
           sextet (Z.shiftr v 6); pad]
      | a :: b :: c :: l' =>
          let v := Z.lor (Z.lor (Z.shiftl (Str.code a) 16)
                                (Z.shiftl (Str.code b) 8)) (Str.code c) in
          sextet (Z.shiftr v 18) :: sextet (Z.shiftr v 12)
            :: sextet (Z.shiftr v 6) :: sextet v :: encode fuel' l'
      end
  end.

Definition EncodeToString (s : string) : string :=
  let l := Str.bytes s in Str.of_bytes (encode (S (length l)) l).

End Base64.

(** ** Insertion sort

    Used for [sort.Strings] inside [Glob] and as one implementation of
    [sort.Sort].  [less a b] is Go's [Less]; an element is put in front
    of the first element that is not smaller than it, so equal elements
    keep their order. *)

Section Insertion.
Context {A : Type} (less : A -> A -> bool).

Fixpoint insert_sorted (x : A) (l : list A) : list A :=
  match l with
  | [] => [x]
  | y :: l' => if less y x then y :: insert_sorted x l' else x :: l
  end.

Definition insertion_sort (l : list A) : list A :=
  fold_right insert_sorted [] l.

End Insertion.

(** ** The file system and the PDF collaborator *)

Inductive FileKind := RegularFile | Directory.

(** What poppler sees in a file it can open. *)
Record PdfDocument := {
  NPages : Z;
  FirstPageText : string;
  FirstPageRaster : string
}.

Record Inode := {
  kind : FileKind;
  size : Z;
  modTime : Time.t;
  (** [os.Open] fails with this message. *)
  openErr : option string;
  (** [f.Stat()] on the open file fails with this message. *)
  statErr : option string;
  (** [poppler.Open]: an error message or the document. *)
  pdf : string + PdfDocument
}.

(** The environment of one request: the files by absolute path, the
    [-archive] flag, the offset of the local time zone, and the JPEG
    encoder. *)
Record World := {
  files : gmap string Inode;
  archivePath : string;
  localOffset : Z;
  jpeg_Encode : string -> string
}.

(** ** [path/filepath.Match] and [path/filepath.Glob] *)

Module Filepath.

Import Str.

Definition star : ascii := "*"%char.

Fixpoint skip_stars (p : list ascii) : bool * list ascii :=
  match p with
  | c :: p' => if Ascii.eqb c star then (true, snd (skip_stars p')) else (false, p)
  | [] => (false, [])
  end.

(** The scan loop of [scanChunk]: the chunk up to the next star that is
    not inside brackets, and what follows it. *)
Fixpoint scan (inrange : bool) (p : list ascii) : list ascii * list ascii :=
  match p with
  | [] => ([], [])
  | c :: p' =>
      if Ascii.eqb c "\" then
        match p' with
        | c' :: p'' => let '(ch, r) := scan inrange p'' in (c :: c' :: ch, r)
        | [] => ([c], [])
        end
      else if Ascii.eqb c "[" then
        let '(ch, r) := scan true p' in (c :: ch, r)
      else if Ascii.eqb c "]" then
        let '(ch, r) := scan false p' in (c :: ch, r)
      else if Ascii.eqb c star then
        if inrange then let '(ch, r) := scan true p' in (c :: ch, r)
        else ([], p)
      else
        let '(ch, r) := scan inrange p' in (c :: ch, r)
  end.

Definition scanChunk (pattern : list ascii) : bool * list ascii * list ascii :=
  let '(st, p) := skip_stars pattern in
  let '(chunk, rest) := scan false p in
  (st, chunk, rest).

(** [getEsc]: one possibly escaped character of a class; [None] is
    [ErrBadPattern]. *)
Definition getEsc (chunk : list ascii) : option (ascii * list ascii) :=
  match chunk with
  | [] => None
  | c :: chunk1 =>
      if Ascii.eqb c "-" || Ascii.eqb c "]" then None
      else
        let body := if Ascii.eqb c "\" then chunk1 else chunk in
        match body with
        | r :: (_ :: _) as nchunk => Some (r, nchunk)
        | _ => None
        end
  end.

Definition in_range (lo hi : ascii) (r : option ascii) : bool :=
  match r with
  | Some c => (code lo <=? code c) && (code c <=? code hi)
  | None => false
  end.

(** The ranges of a character class up to its closing bracket. *)
Fixpoint class_ranges (fuel : nat) (chunk : list ascii) (r : option ascii)
    (nrange : bool) (matched : bool) : option (bool * list ascii) :=
  match fuel with
  | O => None
  | S fuel' =>
      match chunk, nrange with
      | c :: chunk', true =>
          if Ascii.eqb c "]" then Some (matched, chunk')
          else class_range fuel' chunk r matched
      | _, _ => class_range fuel' chunk r matched
      end
  end
with class_range (fuel : nat) (chunk : list ascii) (r : option ascii)
    (matched : bool) : option (bool * list ascii) :=
  match fuel with
  | O => None
  | S fuel' =>
      match getEsc chunk with
      | None => None
      | Some (lo, chunk1) =>
          match chunk1 with
          | c :: chunk2 =>
              if Ascii.eqb c "-" then
                match getEsc chunk2 with
                | None => None
                | Some (hi, chunk3) =>
                    class_ranges fuel' chunk3 r true (matched || in_range lo hi r)
                end
              else class_ranges fuel' chunk1 r true (matched || in_range lo lo r)
          | [] => None
          end
      end
  end.

Inductive ChunkResult :=
| ChunkErr
| ChunkFail
| ChunkOk (rest : list ascii).

(** [matchChunk]: once the match has failed the loop goes on over the
    chunk, only checking that it is well formed. *)
Fixpoint matchChunk_go (fuel : nat) (chunk s : list ascii) (failed : bool)
    : ChunkResult :=
  match fuel with
  | O => ChunkErr
  | S fuel' =>
      match chunk with
      | [] => if failed then ChunkFail else ChunkOk s
      | c :: chunk' =>
          let failed := failed || match s with [] => true | _ => false end in
          let literal (c0 : ascii) (next : list ascii) :=
            match s with
            | x :: s' =>
                if failed then matchChunk_go fuel' next s failed
                else matchChunk_go fuel' next s' (negb (Ascii.eqb c0 x))
            | [] => matchChunk_go fuel' next s failed
            end in
          if Ascii.eqb c "[" then
            let '(r, s') :=
              match s with
              | x :: s' => if failed then (None, s) else (Some x, s')
              | [] => (None, s)
              end in
            let '(negated, chunk1) :=
              match chunk' with
              | n :: chunk1 =>
                  if Ascii.eqb n "^" then (true, chunk1) else (false, chunk')
              | [] => (false, chunk')
              end in
            match class_ranges (2 * S (length chunk1)) chunk1 r false false with
            | None => ChunkErr
            | Some (m, chunk2) =>
                matchChunk_go fuel' chunk2 s' (failed || Bool.eqb m negated)
            end
          else if Ascii.eqb c "?" then
            match s with
            | x :: s' =>
                if failed then matchChunk_go fuel' chunk' s failed
                else matchChunk_go fuel' chunk' s' (is_slash x)
            | [] => matchChunk_go fuel' chunk' s failed
            end
          else if Ascii.eqb c "\" then
            match chunk' with
            | [] => ChunkErr
            | c2 :: chunk'' => literal c2 chunk''
            end
          else literal c chunk'
      end
  end.

Definition matchChunk (chunk s : list ascii) : ChunkResult :=
  matchChunk_go (S (length chunk)) chunk s false.

Inductive StarResult :=
| StarErr
| StarFail
| StarNext (t : list ascii).

(** The loop that lets a star skip [i+1] characters, never a slash. *)
Fixpoint star_loop (chunk : list ascii) (last : bool) (name : list ascii)
    : StarResult :=
  match name with
  | [] => StarFail
  | c :: name' =>
      if is_slash c then StarFail
      else
        match matchChunk chunk name' with
        | ChunkOk t =>
            if last && negb (match t with [] => true | _ => false end)
            then star_loop chunk last name'
            else StarNext t
        | ChunkErr => StarErr
        | ChunkFail => star_loop chunk last name'
        end
  end.

Definition is_nil {A} (l : list A) : bool :=
  match l with [] => true | _ => false end.

(** Before [Match] answers false, it checks that the rest of the pattern
    is well formed. *)
Fixpoint check_rest (fuel : nat) (pattern : list ascii) : option bool :=
  match pattern with
  | [] => Some false
  | _ =>
      match fuel with
      | O => None
      | S fuel' =>
          let '(_, chunk, rest) := scanChunk pattern in
          match matchChunk chunk [] with
          | ChunkErr => None
          | _ => check_rest fuel' rest
          end
      end
  end.

(** [Match]; [None] is [ErrBadPattern]. *)
Fixpoint Match_go (fuel : nat) (pattern name : list ascii) : option bool :=
  match pattern with
  | [] => Some (is_nil name)
  | _ =>
      match fuel with
      | O => None
      | S fuel' =>
          let '(st, chunk, rest) := scanChunk pattern in
          if st && is_nil chunk then Some (negb (has_slash name))
          else
            let no_match := check_rest (length rest) rest in
            let skip :=
              if st then
                match star_loop chunk (is_nil rest) name with
                | StarErr => None
                | StarFail => no_match
                | StarNext t => Match_go fuel' rest t
                end
              else no_match in
            match matchChunk chunk name with
            | ChunkOk t =>
                if is_nil t || negb (is_nil rest) then Match_go fuel' rest t
                else skip
            | ChunkErr => None
            | ChunkFail => skip
            end
      end
  end.

Definition Match (pattern name : string) : option bool :=
  Match_go (S (length (bytes pattern))) (bytes pattern) (bytes name).

(** [hasMeta]. *)
Definition hasMeta (p : string) : bool :=
  contains_any (bytes p) (bytes "*?[\").

(** [Split]: the directory with its final slash, and the file. *)
Definition Split (p : string) : string * string :=
  let r := rev (bytes p) in
  let file := Path.until_slash r in
  (of_bytes (rev (skipn (length file) r)), of_bytes (rev file)).

Definition cleanGlobPath (p : string) : string :=
  match bytes p with
  | [] => "."
  | [c] => if is_slash c then p else ""
  | l => of_bytes (removelast l)
  end.

(** The text a directory puts in front of the names of its entries;
    for a clean [dir] and an entry name [n], [Join(dir, n)]. *)
Definition dir_prefix (dir : string) : string :=
  if String.eqb dir "." then ""
  else if String.eqb dir "/" then "/"
  else dir +:+ "/".

Definition Join (dir n : string) : string := dir_prefix dir +:+ n.

(** The name under which [p] is an entry of [dir], if it is one. *)
Definition child_name (dir p : string) : option string :=
  match strip_prefix (bytes (dir_prefix dir)) (bytes p) with
  | Some n => if is_nil n || has_slash n then None else Some (of_bytes n)
  | None => None
  end.

(** [d.Readdirnames(-1)] followed by [sort.Strings]. *)
Definition Readdirnames (w : World) (dir : string) : list string :=
  insertion_sort String.ltb
    (omap (child_name dir) (map fst (map_to_list (files w)))).

Inductive GlobError := ErrBadPattern.

(** The loop of [glob] over the sorted names. *)
Fixpoint glob_names (dir pattern : string) (names : list string)
    (m : list string) : list string * option GlobError :=
  match names with
  | [] => (m, None)
  | n :: names' =>
      match Match pattern n with
      | None => (m, Some ErrBadPattern)
      | Some true => glob_names dir pattern names' (m ++ [Join dir n])
      | Some false => glob_names dir pattern names' m
      end
  end.

(** [glob]: file system errors are ignored. *)
Definition glob (w : World) (dir pattern : string) (matches : list string)
    : list string * option GlobError :=
  match files w !! dir with
  | Some ino =>
      match kind ino, openErr ino with
      | Directory, None =>
          glob_names dir pattern (Readdirnames w dir) matches
      | _, _ => (matches, None)
      end
  | None => (matches, None)
  end.

(** The loop of [Glob] over the directories its prefix matched. *)
Fixpoint glob_dirs (w : World) (file : string) (dirs : list string)
    (matches : list string) : list string * option GlobError :=
  match dirs with
  | [] => (matches, None)
  | d :: dirs' =>
      match glob w d file matches with
      | (m, None) => glob_dirs w file dirs' m
      | (m, Some e) => (m, Some e)
      end
  end.

Fixpoint Glob_go (fuel : nat) (w : World) (pattern : string)
    : list string * option GlobError :=
  match fuel with
  | O => ([], Some ErrBadPattern)
  | S fuel' =>
      match Match pattern "" with
      | None => ([], Some ErrBadPattern)
      | Some _ =>
          if negb (hasMeta pattern) then
            match files w !! pattern with
            | Some _ => ([pattern], None)
            | None => ([], None)
            end
          else
            let '(dir0, file) := Split pattern in
            let dir := cleanGlobPath dir0 in
            if negb (hasMeta dir) then glob w dir file []
            else if String.eqb dir pattern then ([], Some ErrBadPattern)
            else
              match Glob_go fuel' w dir with
              | (m, None) => glob_dirs w file m []
              | (_, Some e) => ([], Some e)
              end
      end
  end.

Definition Glob (w : World) (pattern : string)
    : list string * option GlobError :=
  Glob_go (S (String.length pattern)) w pattern.

End Filepath.

(** ** The data of [main.go] *)

Record ArchiveCategory := {
  CatName : string;      (* Name     `json:"name"` *)
  Elements : Z           (* Elements `json:"elements"` *)
}.

Record ArchiveDoc := {
  Id : Z;
  Name : string;
  Size : Z;
  CreateDate : Time.t;
  FileDate : Time.t;
  Pages : Z;
  Content : string;
  FilePath : string
}.

Record ArchiveDocThumb := {
  ThumbId : Z;           (* Id *)
  Thumb : string;        (* the rendered image *)
  Encoding : string
}.

(** ** [encoding/json]

    A value is kept as a tree.  The fields a struct is encoded with are
    chosen as [typeFields] does for a struct without embedded fields: a
    field tagged ["-"] is left out, a field takes the name of its tag or
    else its Go name, and among the fields of one name a single tagged
    one wins, or a single one when none is tagged; otherwise all of them
    are dropped without an error. *)

Module Json.

Inductive Value :=
| Num (n : Z)
| Str (s : string)
| Timestamp (t : Time.t)      (* the RFC 3339 text of an instant *)
| Arr (l : list Value)
| Obj (members : list (string * Value)).

Record Field := {
  goName : string;
  tag : string;               (* the name part of the json tag *)
  value : Value
}.

Definition omitted (f : Field) : bool := String.eqb (tag f) "-".

Definition tagged (f : Field) : bool := negb (String.eqb (tag f) "").

Definition jsonName (f : Field) : string :=
  if tagged f then tag f else goName f.

Definition same_name (f g : Field) : bool :=
  String.eqb (jsonName f) (jsonName g).

(** [dominantField] on the fields named like [f]. *)
Definition dominant (fs : list Field) (f : Field) : bool :=
  let group := filter (fun g => same_name f g = true) fs in
  let tagged_group := filter (fun g => tagged g = true) group in
  match tagged_group with
  | [] => match group with [_] => true | _ => false end
  | [_] => tagged f
  | _ => false
  end.

Definition typeFields (fs : list Field) : list Field :=
  let candidates := filter (fun f => omitted f = false) fs in
  filter (fun f => dominant candidates f = true) candidates.

Definition Marshal_struct (fs : list Field) : Value :=
  Obj (map (fun f => (jsonName f, value f)) (typeFields fs)).

Definition keys (v : Value) : list string :=
  match v with
  | Obj members => map fst members
  | _ => []
  end.

Definition member (k : string) (v : Value) : option Value :=
  match v with
  | Obj members => snd <$> find (fun m => String.eqb (fst m) k) members
  | _ => None
  end.

End Json.

(** The struct tags of [ArchiveDoc], in declaration order. *)
Definition ArchiveDoc_fields (a : ArchiveDoc) : list Json.Field :=
  [ {| Json.goName := "Id"; Json.tag := "id"; Json.value := Json.Num (Id a) |};
    {| Json.goName := "Name"; Json.tag := "name"; Json.value := Json.Str (Name a) |};
    {| Json.goName := "Size"; Json.tag := "size"; Json.value := Json.Num (Size a) |};
    {| Json.goName := "CreateDate"; Json.tag := "timestamp";
       Json.value := Json.Timestamp (CreateDate a) |};
    {| Json.goName := "FileDate"; Json.tag := "timestamp";
       Json.value := Json.Timestamp (FileDate a) |};
    {| Json.goName := "Pages"; Json.tag := "pages"; Json.value := Json.Num (Pages a) |};
    {| Json.goName := "Content"; Json.tag := "content";
       Json.value := Json.Str (Content a) |};
    {| Json.goName := "FilePath"; Json.tag := "-"; Json.value := Json.Str (FilePath a) |} ].

Definition ArchiveCategory_fields (c : ArchiveCategory) : list Json.Field :=
  [ {| Json.goName := "Name"; Json.tag := "name"; Json.value := Json.Str (CatName c) |};
    {| Json.goName := "Elements"; Json.tag := "elements";
       Json.value := Json.Num (Elements c) |} ].

Definition encode_ArchiveDoc (a : ArchiveDoc) : Json.Value :=
  Json.Marshal_struct (ArchiveDoc_fields a).

Definition encode_ArchiveDocs (l : list ArchiveDoc) : Json.Value :=
  Json.Arr (map encode_ArchiveDoc l).

Definition encode_ArchiveCategories (l : list ArchiveCategory) : Json.Value :=
  Json.Arr (map (fun c => Json.Marshal_struct (ArchiveCategory_fields c)) l).

(** ** The server state and the monad of handlers

    [docCache] and [docThumbCache] are the two package-level maps.  The
    other three fields record what a handler does to the outside: the
    lines it logs, the calls it makes to the PDF library, and what it
    writes to the [http.ResponseWriter] of the request being served. *)

Inductive PdfEvent :=
| PdfOpen (path : string)
| PdfGetNPages
| PdfGetPage (i : Z)
| PdfText
| PdfRender (dpi : Z).

(** One write to the response: raw bytes, or a JSON document. *)
Inductive Chunk :=
| Raw (b : string)
| Encoded (v : Json.Value).

Record Server := {
  docCache : gmap Z ArchiveDoc;
  docThumbCache : gmap Z ArchiveDocThumb;
  logged : list string;
  pdf_io : list PdfEvent;
  written : list Chunk
}.

(** How a handler ends: it returns, it panics (the HTTP server recovers
    and goes on with other requests), or [log.Fatal] ends the process. *)
Inductive Outcome (A : Type) :=
| Done (a : A)
| Panic (msg : string)
| Exit (code : Z).
Arguments Done {A} a.
Arguments Panic {A} msg.
Arguments Exit {A} code.

Definition M (A : Type) : Type := Server -> Outcome A * Server.

Definition ret {A} (a : A) : M A := fun s => (Done a, s).

Definition bind {A B} (c : M A) (k : A -> M B) : M B :=
  fun s =>
    match c s with
    | (Done a, s') => k a s'
    | (Panic msg, s') => (Panic msg, s')
    | (Exit code, s') => (Exit code, s')
    end.

Declare Scope go_scope.
Delimit Scope go_scope with go.
Notation "'let*' x ':=' c 'in' k" := (bind c (fun x => k))
  (at level 10, x pattern, c at level 100, k at level 200) : go_scope.
Notation "c '>>' k" := (bind c (fun _ => k))
  (at level 60, right associativity) : go_scope.
Local Open Scope go_scope.

Definition panic {A} (msg : string) : M A := fun s => (Panic msg, s).

Definition nil_dereference : string :=
  "runtime error: invalid memory address or nil pointer dereference".

Definition log_Printf (line : string) : M unit :=
  fun s => (Done tt,
            {| docCache := docCache s; docThumbCache := docThumbCache s;
               logged := logged s ++ [line]; pdf_io := pdf_io s;
               written := written s |}).

(** [log.Fatal]: print, then [os.Exit(1)]. *)
Definition log_Fatal {A} (line : string) : M A :=
  fun s => (Exit 1,
            {| docCache := docCache s; docThumbCache := docThumbCache s;
               logged := logged s ++ [line]; pdf_io := pdf_io s;
               written := written s |}).

Definition respond (c : Chunk) : M unit :=
  fun s => (Done tt,
            {| docCache := docCache s; docThumbCache := docThumbCache s;
               logged := logged s; pdf_io := pdf_io s;
               written := written s ++ [c] |}).

Definition pdf_call (e : PdfEvent) : M unit :=
  fun s => (Done tt,
            {| docCache := docCache s; docThumbCache := docThumbCache s;
               logged := logged s; pdf_io := pdf_io s ++ [e];
               written := written s |}).

(** [docCacheMutex.Lock(); d, ok := docCache[id]; docCacheMutex.Unlock()]:
    the pointer read is nil when [ok] is false. *)
Definition lookupDoc (id : Z) : M (option ArchiveDoc) :=
  fun s => (Done (docCache s !! id), s).

Definition storeDoc (id : Z) (d : ArchiveDoc) : M unit :=
  fun s => (Done tt,
            {| docCache := <[id := d]> (docCache s);
               docThumbCache := docThumbCache s;
               logged := logged s; pdf_io := pdf_io s;
               written := written s |}).

Definition lookupThumb (id : Z) : M (option ArchiveDocThumb) :=
  fun s => (Done (docThumbCache s !! id), s).

Definition storeThumb (id : Z) (t : ArchiveDocThumb) : M unit :=
  fun s => (Done tt,
            {| docCache := docCache s;
               docThumbCache := <[id := t]> (docThumbCache s);
               logged := logged s; pdf_io := pdf_io s;
               written := written s |}).

(** Reading [p.FilePath] through a pointer. *)
Definition FilePath_of (p : option ArchiveDoc) : M string :=
  match p with
  | Some d => ret (FilePath d)
  | None => panic nil_dereference
  end.

(** ** The collaborators: [os] and [poppler] *)

Inductive Result (A : Type) :=
| Ok (a : A)
| Err (msg : string).
Arguments Ok {A} a.
Arguments Err {A} msg.

Definition no_such_file (path : string) : string :=
  "open " +:+ path +:+ ": no such file or directory".

(** [os.Open]: the open file is its inode. *)
Definition os_Open (w : World) (path : string) : Result Inode :=
  match files w !! path with
  | None => Err (no_such_file path)
  | Some ino =>
      match openErr ino with
      | Some e => Err e
      | None => Ok ino
      end
  end.

(** [f.Stat()]. *)
Definition Stat (f : Inode) : Result Inode :=
  match statErr f with
  | Some e => Err e
  | None => Ok f
  end.

Definition IsDir (fi : Inode) : bool :=
  match kind fi with Directory => true | RegularFile => false end.

(** [poppler.Open]: the document pointer is nil when there is an error. *)
Definition poppler_Open (w : World) (path : string) : M (Result PdfDocument) :=
  pdf_call (PdfOpen path) >>
  ret match files w !! path with
      | None => Err (no_such_file path)
      | Some ino =>
          match pdf ino with
          | inl e => Err e
          | inr d => Ok d
          end
      end.

(** The methods of a document and of its first page.  The document of a
    failed [Open] cannot be used: a method called on it aborts the
    request, as the panic of a nil pointer does. *)
Definition GetNPages (d : option PdfDocument) : M Z :=
  match d with
  | Some doc => pdf_call PdfGetNPages >> ret (NPages doc)
  | None => panic nil_dereference
  end.

Definition GetPage (d : option PdfDocument) (i : Z) : M PdfDocument :=
  match d with
  | Some doc => pdf_call (PdfGetPage i) >> ret doc
  | None => panic nil_dereference
  end.

Definition Text (page : PdfDocument) : M string :=
  pdf_call PdfText >> ret (FirstPageText page).

Definition Render (page : PdfDocument) (dpi : Z) : M string :=
  pdf_call (PdfRender dpi) >> ret (FirstPageRaster page).

(** ** [ProcessDocument] *)

Definition ProcessDocument (w : World) (filepath : string)
    : M (Result ArchiveDoc) :=
  (* generate ID from path *)
  let docId := fnv64a filepath in
  (* check cache *)
  let* prestoredDoc := lookupDoc docId in
  match prestoredDoc with
  | Some d => ret (Ok d)
  | None =>
      (* get file stats *)
      match os_Open w filepath with
      | Err e => ret (Err e)
      | Ok file =>
          match Stat file with
          | Err e => ret (Err e)
          | Ok fi =>
              let fileSize := size fi in
              let modTime := modTime fi in
              (* try to parse file time *)
              let fileTime :=
                match Scan.Sscanf6 (Path.Base filepath) with
                | Some (year, month, day, hour, minute, second) =>
                    Time.Date year month day hour minute second (localOffset w)
                | None => modTime
                end in
              (* get pdf stats *)
              let* opened := poppler_Open w filepath in
              match opened with
              | Err e => ret (Err e)
              | Ok pdfDoc =>
                  let* numPages := GetNPages (Some pdfDoc) in
                  let* firstPage := GetPage (Some pdfDoc) 0 in
                  let* pageText := Text firstPage in
                  let encodedText := Base64.EncodeToString pageText in
                  let newDoc :=
                    {| Id := docId;
                       Name := Path.Base filepath;
                       FilePath := filepath;
                       Size := fileSize;
                       CreateDate := modTime;
                       FileDate := fileTime;
                       Pages := numPages;
                       Content := encodedText |} in
                  (* add to cache *)
                  storeDoc docId newDoc >>
                  ret (Ok newDoc)
              end
          end
      end
  end.


(** ** [sort.Sort]

    The package documents [Sort] by its contract only: the data end up in
    ascending order of [Less], and "the sort is not guaranteed to be
    stable".  An implementation is therefore any function with these two
    properties, where [Less] is a strict weak order. *)

Record LessOrder {A : Type} (less : A -> A -> bool) : Prop := {
  less_asym : forall a b, less a b = true -> less b a = false;
  less_negtrans :
    forall a b c, less b a = false -> less c b = false -> less c a = false
}.

Class Sorter := {
  sort_Sort : forall {A : Type}, (A -> A -> bool) -> list A -> list A;
  sort_Sort_perm :
    forall (A : Type) (less : A -> A -> bool) (l : list A),
      Permutation l (sort_Sort less l);
  sort_Sort_sorted :
    forall (A : Type) (less : A -> A -> bool) (l : list A),
      LessOrder less ->
      StronglySorted (fun a b => less b a = false) (sort_Sort less l)
}.

(** [ArchiveDocs.Less]: the later logical date comes first. *)
Definition Less (a b : ArchiveDoc) : bool :=
  Time.After (FileDate a) (FileDate b).

(** ** [AllDocs] *)

Definition bad_pattern : string := "syntax error in pattern".

Definition len {A} (l : list A) : Z := Z.of_nat (length l).

(** The loop "(2) parse docs". *)
Fixpoint parse_docs (w : World) (archiveFiles : list string)
    (archiveDocs : list ArchiveDoc) : M (list ArchiveDoc) :=
  match archiveFiles with
  | [] => ret archiveDocs
  | file :: rest =>
      let* parsed := ProcessDocument w file in
      match parsed with
      | Err e =>
          log_Printf ("Error parsing document " +:+ file +:+ ": " +:+ e) >>
          parse_docs w rest archiveDocs
      | Ok newDoc => parse_docs w rest (archiveDocs ++ [newDoc])
      end
  end.

(** The handler of [GET /alldocs/]; its value is the slice it encodes. *)
Definition AllDocs `{Sorter} (w : World) : M (list ArchiveDoc) :=
  let pattern := archivePath w +:+ "/*/*.pdf" in
  match Filepath.Glob w pattern with
  | (_, Some _) =>
      log_Fatal ("Error finding archive content: %v" +:+ bad_pattern)
  | (archiveFiles, None) =>
      log_Printf ("Found " +:+ Str.decimal (len archiveFiles)
                  +:+ " documents (" +:+ pattern +:+ ")") >>
      log_Printf ("Parse " +:+ Str.decimal (len archiveFiles) +:+ " documents") >>
      let* archiveDocs := parse_docs w archiveFiles [] in
      log_Printf ("Sort " +:+ Str.decimal (len archiveDocs) +:+ " documents") >>
      let sorted := sort_Sort Less archiveDocs in
      log_Printf ("Output " +:+ Str.decimal (len sorted) +:+ " documents") >>
      respond (Encoded (encode_ArchiveDocs sorted)) >>
      ret sorted
  end.

(** ** [Categories] *)

Definition category_error (e : string) : string :=
  "Error finding parsing categories: %v" +:+ e.

(** The loop over the entries of the archive root. *)
Fixpoint list_categories (w : World) (archiveCategories : list string)
    (archiveCats : list ArchiveCategory) : M (list ArchiveCategory) :=
  match archiveCategories with
  | [] => ret archiveCats
  | category :: rest =>
      let cat := Path.Base category in
      let isHidden := Str.HasPrefix cat "." in
      if isHidden then list_categories w rest archiveCats
      else
        match os_Open w category with
        | Err e => log_Fatal (category_error e)
        | Ok f =>
            match Stat f with
            | Err e => log_Fatal (category_error e)
            | Ok fi =>
                if IsDir fi then
                  match Filepath.Glob w (category +:+ "/*.pdf") with
                  | (_, Some _) => log_Fatal (category_error bad_pattern)
                  | (fileinCat, None) =>
                      let newCat :=
                        {| CatName := cat; Elements := len fileinCat |} in
                      list_categories w rest (archiveCats ++ [newCat])
                  end
                else list_categories w rest archiveCats
            end
        end
  end.

(** The handler of [GET /categories/]; its value is the slice it encodes. *)
Definition Categories (w : World) : M (list ArchiveCategory) :=
  let pattern := archivePath w +:+ "/*" in
  match Filepath.Glob w pattern with
  | (_, Some _) =>
      log_Fatal ("Error finding archive content: %v" +:+ bad_pattern)
  | (archiveCategories, None) =>
      log_Printf ("Found " +:+ Str.decimal (len archiveCategories)
                  +:+ " categories (" +:+ pattern +:+ ")") >>
      let* archiveCats := list_categories w archiveCategories [] in
      respond (Encoded (encode_ArchiveCategories archiveCats)) >>
      ret archiveCats
  end.

(** ** [DocThumbnail] *)

Definition unknown_document (docId : Z) : string :=
  "Requesting unknown document: " +:+ Str.decimal docId.

Definition invalid_docid (docIdStr : string) : string :=
  "Invalid docid: " +:+ docIdStr.

Definition when (b : bool) (c : M unit) : M unit :=
  if b then c else ret tt.

Definition is_nil_ptr {A} (p : option A) : bool :=
  match p with None => true | Some _ => false end.

Definition not_nil {A} (err : option A) : bool := negb (is_nil_ptr err).

(** The handler of [GET /thumbnail/:id], given the [id] of the route.
    [Encoding] is the content of the local buffer [b], which nothing
    writes to after [b.Bytes()] is taken; [b.WriteTo(w)] sends the same
    bytes. *)
Definition DocThumbnail (w : World) (docIdStr : string) : M unit :=
  let '(docId, err) := ParseUint docIdStr in
  when (not_nil err)
    (log_Printf (invalid_docid docIdStr) >>
     respond (Raw (invalid_docid docIdStr))) >>
  let* prestoredThumb := lookupThumb docId in
  match prestoredThumb with
  | Some thumb => respond (Raw (Encoding thumb))
  | None =>
      let* prestoredDoc := lookupDoc docId in
      when (is_nil_ptr prestoredDoc)
        (log_Printf (unknown_document docId) >>
         respond (Raw (unknown_document docId))) >>
      let* path := FilePath_of prestoredDoc in
      log_Printf ("Open pdf document: " +:+ path) >>
      let* opened := poppler_Open w path in
      let pdfDoc := match opened with Ok d => Some d | Err _ => None end in
      when (is_nil_ptr pdfDoc)
        (log_Printf ("Error opening PDF document for thumbnail creation: "
                     +:+ match opened with Err e => e | Ok _ => "" end)) >>
      log_Printf ("Get first page of pdf document: " +:+ path) >>
      let* firstPage := GetPage pdfDoc 0 in
      log_Printf ("Render first page of document: " +:+ path) >>
      let* pageImage := Render firstPage 300 in
      log_Printf ("Encode as PNG document: " +:+ path) >>
      let b := jpeg_Encode w pageImage in
      log_Printf ("Write to client document: " +:+ path) >>
      let newThumb :=
        {| ThumbId := docId; Thumb := pageImage; Encoding := b |} in
      log_Printf ("Store in cache document: " +:+ path) >>
      storeThumb docId newThumb >>
      respond (Raw b)
  end.

(** ** Serving requests *)

(** A request gets a response writer of its own. *)
Definition serve {A} (handler : M A) (s : Server) : Outcome A * Server :=
  handler {| docCache := docCache s; docThumbCache := docThumbCache s;
             logged := logged s; pdf_io := pdf_io s; written := [] |}.

(** The state when [main] starts listening. *)
Definition initial : Server :=
  {| docCache := ∅; docThumbCache := ∅; logged := []; pdf_io := [];
     written := [] |}.

(** The requests the server answers.  ([DocContent], the handler of
    [/doc/:id], uses an identifier it never declares and is left out.) *)
Inductive Request :=
| GetAllDocs
| GetCategories
| GetThumbnail (id : string).

Definition handle `{Sorter} (w : World) (r : Request) : M unit :=
  match r with
  | GetAllDocs => AllDocs w >> ret tt
  | GetCategories => Categories w >> ret tt
  | GetThumbnail id => DocThumbnail w id
  end.

Definition exited {A} (o : Outcome A) : bool :=
  match o with Exit _ => true | _ => false end.

(** The states the server can be in, when every request is served in a
    world that satisfies [W]: a handler that returns or panics leaves the
    server running, [log.Fatal] ends it. *)
Inductive reachable `{Sorter} (W : World -> Prop) : Server -> Prop :=
| reachable_initial : reachable W initial
| reachable_serve s w r o s' :
    reachable W s -> W w ->
    serve (handle w r) s = (o, s') -> exited o = false ->
    reachable W s'.

(** Files that do not change while the server runs. *)
Definition fixed_world (w : World) : World -> Prop := fun w' => w' = w.

(** What [ProcessDocument] computes from the files when the cache has no
    record: the record, or the error it returns. *)
Definition extract (w : World) (filepath : string) : Result ArchiveDoc :=
  match os_Open w filepath with
  | Err e => Err e
  | Ok file =>
      match Stat file with
      | Err e => Err e
      | Ok fi =>
          match pdf fi with
          | inl e => Err e
          | inr pdfDoc =>
              Ok {| Id := fnv64a filepath;
                    Name := Path.Base filepath;
                    FilePath := filepath;
                    Size := size fi;
                    CreateDate := modTime fi;
                    FileDate :=
                      match Scan.Sscanf6 (Path.Base filepath) with
                      | Some (year, month, day, hour, minute, second) =>
                          Time.Date year month day hour minute second
                                    (localOffset w)
                      | None => modTime fi
                      end;
                    Pages := NPages pdfDoc;
                    Content := Base64.EncodeToString (FirstPageText pdfDoc) |}
          end
      end
  end.

(** The PDF calls of one extraction. *)
Definition extract_io (w : World) (filepath : string) : list PdfEvent :=
  match os_Open w filepath with
  | Err _ => []
  | Ok file =>
      match Stat file with
      | Err _ => []
      | Ok fi =>
          match pdf fi with
          | inl _ => [PdfOpen filepath]
          | inr _ => [PdfOpen filepath; PdfGetNPages; PdfGetPage 0; PdfText]
          end
      end
  end.

(** The invariants of the two caches: a record is stored under its own
    [Id], and a thumbnail only under an id that has a record. *)
Definition docs_keyed (s : Server) : Prop :=
  forall id d, docCache s !! id = Some d -> Id d = id.

Definition thumbs_have_docs (s : Server) : Prop :=
  forall id t, docThumbCache s !! id = Some t -> is_Some (docCache s !! id).

(** In a file system that does not change, a record in the cache is the
    one its path extracts to. *)
Definition docs_extracted (w : World) (s : Server) : Prop :=
  forall id d, docCache s !! id = Some d ->
    id = fnv64a (FilePath d) /\ extract w (FilePath d) = Ok d.






(** A path without the characters [Glob] gives a meaning to. *)
Definition plain (p : string) : Prop := Filepath.hasMeta p = false.

(** An entry name: not empty, no slash. *)
Definition entry_name (n : string) : Prop :=
  n <> "" /\ Str.has_slash (Str.bytes n) = false.

Definition is_hidden (n : string) : bool := Str.HasPrefix n ".".

(** An openable directory at [path]. *)
Definition directory_at (w : World) (path : string) : Prop :=
  exists ino, files w !! path = Some ino /\ kind ino = Directory
              /\ openErr ino = None.

(** The records the loop of [AllDocs] collects from a list of paths, in
    scan order, given the cache it starts with: a path whose fingerprint
    has a record yields that record, another path is extracted and, when
    that succeeds, cached. *)
Fixpoint scan_docs (w : World) (cache : gmap Z ArchiveDoc)
    (archiveFiles : list string) : list ArchiveDoc :=
  match archiveFiles with
  | [] => []
  | file :: rest =>
      match cache !! fnv64a file with
      | Some d => d :: scan_docs w cache rest
      | None =>
          match extract w file with
          | Ok d => d :: scan_docs w (<[fnv64a file := d]> cache) rest
          | Err _ => scan_docs w cache rest
          end
      end
  end.

(** One of the characters [* ? [ \]. *)
Definition is_meta (c : ascii) : bool :=
  existsb (Ascii.eqb c) (Str.bytes "*?[\").

(** [l] ends with [suffix]. *)
Fixpoint ends_with (suffix l : list ascii) : bool :=
  match Str.strip_prefix suffix l with
  | Some [] => true
  | _ =>
      match l with
      | [] => false
      | _ :: l' => ends_with suffix l'
      end
  end.

(** A name with the suffix [.pdf]. *)
Definition is_pdf_name (n : string) : bool :=
  ends_with (Str.bytes ".pdf") (Str.bytes n).

(** The paths [glob] finds in one directory for the pattern [*.pdf]. *)
Definition pdf_paths (w : World) (dir : string) : list string :=
  fst (Filepath.glob w dir "*.pdf" []).

(** The listing of categories in the words of the specification: the
    entries of the root that are not hidden and are directories, each
    with the number of its own entries that have the suffix [.pdf]. *)
Definition is_directory (w : World) (path : string) : bool :=
  match files w !! path with
  | Some ino => IsDir ino
  | None => false
  end.

Definition shown_directory (w : World) (n : string) : bool :=
  negb (is_hidden n) && is_directory w (Filepath.Join (archivePath w) n).

Definition category_of (w : World) (n : string) : ArchiveCategory :=
  {| CatName := n;
     Elements :=
       len (List.filter is_pdf_name
              (Filepath.Readdirnames w (Filepath.Join (archivePath w) n))) |}.

Definition expected_categories (w : World) : list ArchiveCategory :=
  map (category_of w)
      (List.filter (shown_directory w)
                   (Filepath.Readdirnames w (archivePath w))).

(** An entry of the root the listing gets past: it is hidden, or it can
    be opened and statted and, when it is a directory, its name has none
    of the characters of patterns. *)
Definition listable (w : World) (n : string) : bool :=
  is_hidden n ||
  match files w !! Filepath.Join (archivePath w) n with
  | Some ino =>
      is_nil_ptr (openErr ino) && is_nil_ptr (statErr ino)
      && (negb (IsDir ino) || negb (Filepath.hasMeta n))
  | None => false
  end.

(** [directory_at], as a test. *)
Definition openable_dir (w : World) (dir : string) : bool :=
  match files w !! dir with
  | Some ino =>
      match kind ino, openErr ino with
      | Directory, None => true
      | _, _ => false
      end
  | None => false
  end.

(** ** The methods of [ArchiveDocs], the [sort.Interface] of the listing

    An index is a Go [int]; reading [slice[i]] outside the slice panics,
    which is [None] here. *)

Module ArchiveDocs.

Definition index (slice : list ArchiveDoc) (i : Z) : option ArchiveDoc :=
  if i <? 0 then None else slice !! Z.to_nat i.

Definition Len (slice : list ArchiveDoc) : Z := Z.of_nat (length slice).

(** [slice[i].FileDate.After(slice[j].FileDate)]. *)
Definition Less (slice : list ArchiveDoc) (i j : Z) : option bool :=
  match index slice i, index slice j with
  | Some a, Some b => Some (Time.After (FileDate a) (FileDate b))
  | _, _ => None
  end.

(** [slice[i], slice[j] = slice[j], slice[i]]. *)
Definition Swap (slice : list ArchiveDoc) (i j : Z) : option (list ArchiveDoc) :=
  match index slice j, index slice i with
  | Some b, Some a =>
      Some (<[Z.to_nat j := a]> (<[Z.to_nat i := b]> slice))
  | _, _ => None
  end.

End ArchiveDocs.

(** The document cache after the loop of [AllDocs] has gone over a list
    of paths. *)
Fixpoint scan_cache (w : World) (cache : gmap Z ArchiveDoc)
    (archiveFiles : list string) : gmap Z ArchiveDoc :=
  match archiveFiles with
  | [] => cache
  | file :: rest =>
      match cache !! fnv64a file with
      | Some _ => scan_cache w cache rest
      | None =>
          match extract w file with
          | Ok d => scan_cache w (<[fnv64a file := d]> cache) rest
          | Err _ => scan_cache w cache rest
          end
      end
  end.


(** A character of the base-64 alphabet, or the padding. *)
Definition base64_char (c : ascii) : Prop :=
  In c Base64.alphabet \/ c = Base64.pad.

(** The id [DocThumbnail] works with, and what it first writes when the
    text of the route is not a number: it goes on with the id that
    [ParseUint] returned next to the error. *)
Definition requested (docIdStr : string) : Z := fst (ParseUint docIdStr).

Definition complaint (docIdStr : string) : list Chunk :=
  if not_nil (snd (ParseUint docIdStr)) then [Raw (invalid_docid docIdStr)]
  else [].

(** ** A small archive, for examples

    [/r] holds the categories [xy], [x*] and the hidden [.h], and a stray
    file; [xy] holds two documents, a text file and a sub-directory. *)

Definition sample_dir : Inode :=
  {| kind := Directory; size := 4096; modTime := 5; openErr := None;
     statErr := None; pdf := inl "not a PDF document" |}.

Definition sample_pdf (mtime : Time.t) (text : string) : Inode :=
  {| kind := RegularFile; size := 10; modTime := mtime; openErr := None;
     statErr := None;
     pdf := inr {| NPages := 2; FirstPageText := text;
                   FirstPageRaster := "raster of " +:+ text |} |}.

Definition sample_broken : Inode :=
  {| kind := RegularFile; size := 3; modTime := 8; openErr := None;
     statErr := None; pdf := inl "PDF document is damaged" |}.

Definition sample_locked : Inode :=
  {| kind := Directory; size := 4096; modTime := 5;
     openErr := Some "open /r/locked: permission denied";
     statErr := None; pdf := inl "not a PDF document" |}.

Definition sample_files : list (string * Inode) :=
  [ ("/r", sample_dir);
    ("/r/x*", sample_dir);
    ("/r/xy", sample_dir);
    ("/r/.h", sample_dir);
    ("/r/notes.pdf", sample_pdf 1 "notes");
    ("/r/.h/q.pdf", sample_pdf 7 "q");
    ("/r/xy/a.pdf", sample_pdf 7 "a");
    ("/r/xy/b.txt", sample_pdf 3 "b");
    ("/r/xy/bad.pdf", sample_broken);
    ("/r/xy/sub", sample_dir);
    ("/r/xy/sub/z.pdf", sample_pdf 1 "z");
    ("/r/xy/2021_03_04_10_15_30_report.pdf", sample_pdf 9 "report") ].

Definition sample_jpeg (raster : string) : string := "JFIF " +:+ raster.

Definition sample_world : World :=
  {| files := list_to_map sample_files; archivePath := "/r";
     localOffset := 0; jpeg_Encode := sample_jpeg |}.

(** The archive without the category [x*]. *)
Definition tidy_world : World :=
  {| files := delete "/r/x*" (list_to_map sample_files); archivePath := "/r";
     localOffset := 0; jpeg_Encode := sample_jpeg |}.

(** No file at all. *)
Definition empty_world : World :=
  {| files := ∅; archivePath := "/r"; localOffset := 0;
     jpeg_Encode := sample_jpeg |}.

(** The archive without the damaged document. *)
Definition sound_world : World :=
  {| files := delete "/r/xy/bad.pdf" (list_to_map sample_files);
     archivePath := "/r"; localOffset := 0; jpeg_Encode := sample_jpeg |}.

(** The same archive with a category that cannot be opened. *)
Definition locked_world : World :=
  {| files := list_to_map (("/r/locked", sample_locked) :: sample_files);
     archivePath := "/r"; localOffset := 0; jpeg_Encode := sample_jpeg |}.

(** * Properties *)

(** ** Strings *)

Lemma bytes_of_bytes (l : list ascii) : Str.bytes (Str.of_bytes l) = l.
Proof. apply list_ascii_of_string_of_list_ascii. Qed.

Lemma of_bytes_bytes (s : string) : Str.of_bytes (Str.bytes s) = s.
Proof. apply string_of_list_ascii_of_string. Qed.

Lemma bytes_app (s1 s2 : string) :
  Str.bytes (s1 +:+ s2) = Str.bytes s1 ++ Str.bytes s2.
Proof.
  induction s1 as [|c s1 IH]; simpl; [reflexivity|].
  unfold Str.bytes in *. simpl. now rewrite IH.
Qed.

Lemma bytes_inj (s1 s2 : string) : Str.bytes s1 = Str.bytes s2 -> s1 = s2.
Proof.
  intros E. rewrite <- (of_bytes_bytes s1), <- (of_bytes_bytes s2).
  now rewrite E.
Qed.

(** ** [ProcessDocument]: a hit returns the stored record, a miss runs
    the extraction *)

Lemma ProcessDocument_hit (w : World) (p : string) (s : Server) (d : ArchiveDoc) :
  docCache s !! fnv64a p = Some d ->
  ProcessDocument w p s = (Done (Ok d), s).
Proof.
  intros Hhit. unfold ProcessDocument, bind, lookupDoc. now rewrite Hhit.
Qed.

Lemma ProcessDocument_miss (w : World) (p : string) (s : Server) :
  docCache s !! fnv64a p = None ->
  exists s',
    ProcessDocument w p s = (Done (extract w p), s')
    /\ docCache s' = match extract w p with
                     | Ok d => <[fnv64a p := d]> (docCache s)
                     | Err _ => docCache s
                     end
    /\ docThumbCache s' = docThumbCache s
    /\ logged s' = logged s
    /\ written s' = written s
    /\ pdf_io s' = pdf_io s ++ extract_io w p.
Proof.
  intros Hmiss.
  unfold ProcessDocument, extract, extract_io, bind, lookupDoc.
  rewrite Hmiss.
  destruct (os_Open w p) as [file|e] eqn:Hopen.
  2:{ eexists; repeat split; simpl; now rewrite ?app_nil_r. }
  destruct (Stat file) as [fi|e] eqn:Hstat.
  2:{ eexists; repeat split; simpl; now rewrite ?app_nil_r. }
  assert (Hfi : files w !! p = Some fi).
  { unfold os_Open in Hopen. destruct (files w !! p) as [ino|]; [|discriminate].
    destruct (openErr ino); [discriminate|]. injection Hopen as ->.
    unfold Stat in Hstat. destruct (statErr file); [discriminate|].
    now injection Hstat as ->. }
  unfold poppler_Open, bind, pdf_call, ret. simpl. rewrite Hfi.
  destruct (pdf fi) as [e|pdfDoc].
  - eexists; repeat split; reflexivity.
  - eexists; repeat split; simpl; try reflexivity.
    now rewrite <- !app_assoc.
Qed.

(** [ProcessDocument] always returns: it neither panics nor exits. *)
Lemma ProcessDocument_returns (w : World) (p : string) (s : Server) :
  exists r s', ProcessDocument w p s = (Done r, s').
Proof.
  destruct (docCache s !! fnv64a p) as [d|] eqn:Hc.
  - exists (Ok d), s. now apply ProcessDocument_hit.
  - destruct (ProcessDocument_miss w p s Hc) as (s' & H & _). eauto.
Qed.

Lemma extract_Id (w : World) (p : string) (d : ArchiveDoc) :
  extract w p = Ok d -> Id d = fnv64a p /\ FilePath d = p.
Proof.
  unfold extract. destruct (os_Open w p); [|discriminate].
  destruct (Stat a); [|discriminate]. destruct (pdf a0); [discriminate|].
  intros [= <-]. now split.
Qed.

(** ** The logical file date (C5) *)

Example Sscanf6_report :
  Scan.Sscanf6 "2021_03_04_10_15_30_report.pdf" = Some (2021, 3, 4, 10, 15, 30).
Proof. reflexivity. Qed.

Example Sscanf6_no_match : Scan.Sscanf6 "report.pdf" = None.
Proof. reflexivity. Qed.

Example Date_report :
  Time.Date 2021 3 4 10 15 30 0 = 1614852930 * Time.nanos.
Proof. reflexivity. Qed.



(** A name without the six numbers: the date is the modification time. *)
Example ProcessDocument_FileDate_fallback :
  exists doc s',
    ProcessDocument sample_world "/r/xy/a.pdf" initial = (Done (Ok doc), s')
    /\ FileDate doc = 7 /\ CreateDate doc = 7.
Proof. eexists _, _. vm_compute. repeat split. Qed.

(** ** Extraction is atomic (C6) *)

(** The three ways an extraction fails. *)
Lemma extract_Err (w : World) (p e : string) :
  extract w p = Err e <->
  os_Open w p = Err e
  \/ (exists f, os_Open w p = Ok f /\ Stat f = Err e)
  \/ (exists f, os_Open w p = Ok f /\ Stat f = Ok f /\ pdf f = inl e).
Proof.
  unfold extract. split.
  - destruct (os_Open w p) as [f|e0]; [|intros [= ->]; now left].
    destruct (Stat f) as [fi|e0] eqn:Hstat;
      [|intros [= ->]; right; left; eauto].
    assert (fi = f) as ->.
    { unfold Stat in Hstat. destruct (statErr f); congruence. }
    destruct (pdf f) as [e0|d] eqn:Hpdf; [|discriminate].
    intros [= ->]. right; right; eauto.
  - intros [H | [(f & H1 & H2) | (f & H1 & H2 & H3)]].
    + now rewrite H.
    + now rewrite H1, H2.
    + now rewrite H1, H2, H3.
Qed.

(** A failing extraction is reported: with no record in the cache, each
    of the three failures makes [ProcessDocument] return the error. *)
Lemma ProcessDocument_fails (w : World) (p e : string) (s : Server) :
  docCache s !! fnv64a p = None ->
  extract w p = Err e ->
  exists s', ProcessDocument w p s = (Done (Err e), s').
Proof.
  intros Hmiss Hex.
  destruct (ProcessDocument_miss w p s Hmiss) as (s' & Hrun & _).
  exists s'. now rewrite Hrun, Hex.
Qed.

(** C6.  When [ProcessDocument] returns an error (the file cannot be
    opened, its stat fails, or poppler cannot open it), both caches are
    what they were, and no record stands under the fingerprint of the
    path. *)
Theorem ProcessDocument_atomic
    (w : World) (p e : string) (s s' : Server) :
  ProcessDocument w p s = (Done (Err e), s') ->
  docCache s' = docCache s
  /\ docThumbCache s' = docThumbCache s
  /\ docCache s' !! fnv64a p = None
  /\ extract w p = Err e.
Proof.
  intros Hrun.
  destruct (docCache s !! fnv64a p) as [d|] eqn:Hc.
  - rewrite (ProcessDocument_hit w p s d Hc) in Hrun. discriminate.
  - destruct (ProcessDocument_miss w p s Hc) as (s1 & Hrun1 & Hcache & Hthumb & _).
    rewrite Hrun1 in Hrun. injection Hrun as Hex <-.
    rewrite Hex in Hcache. rewrite Hcache, Hthumb, Hc. auto.
Qed.

Lemma ProcessDocument_atomic_witness :
  exists s',
    ProcessDocument sample_world "/r/xy/bad.pdf" initial
      = (Done (Err "PDF document is damaged"), s')
    /\ docCache s' = docCache initial
    /\ docCache s' !! fnv64a "/r/xy/bad.pdf" = None.
Proof.
  destruct (ProcessDocument_fails sample_world "/r/xy/bad.pdf"
              "PDF document is damaged" initial) as (s' & Hrun);
    [vm_compute; reflexivity | vm_compute; reflexivity |].
  exists s'. split; [exact Hrun|].
  destruct (ProcessDocument_atomic sample_world "/r/xy/bad.pdf"
              "PDF document is damaged" initial s' Hrun) as (H1 & _ & H3 & _).
  split; [exact H1 | exact H3].
Defined.

(** The other two failures, on the sample archive. *)
Example ProcessDocument_missing_file :
  fst (ProcessDocument sample_world "/r/xy/gone.pdf" initial)
  = Done (Err "open /r/xy/gone.pdf: no such file or directory").
Proof. vm_compute. reflexivity. Qed.

(** ** Extraction is idempotent (C7) *)

(** Two extractions from the same files give the same result, whatever
    else the two states hold. *)
Lemma ProcessDocument_fresh (w : World) (p : string) (s s' : Server) :
  docCache s !! fnv64a p = None ->
  docCache s' !! fnv64a p = None ->
  fst (ProcessDocument w p s') = fst (ProcessDocument w p s).
Proof.
  intros H H'.
  destruct (ProcessDocument_miss w p s H) as (s1 & -> & _).
  destruct (ProcessDocument_miss w p s' H') as (s1' & -> & _).
  reflexivity.
Qed.

(** C7.  Calling [ProcessDocument] twice on a path, the files being the
    same, gives the same result twice.  When the first call returns a
    record, the second call finds it in the cache and changes nothing; a
    call that finds a record in the cache returns it as it is stored; and
    a call that computes the record computes the same one in any state. *)
Theorem ProcessDocument_idempotent
    (w : World) (p : string) (s s1 s2 : Server)
    (r1 r2 : Outcome (Result ArchiveDoc)) :
  ProcessDocument w p s = (r1, s1) ->
  ProcessDocument w p s1 = (r2, s2) ->
  r2 = r1
  /\ docCache s2 = docCache s1
  /\ (forall d, r1 = Done (Ok d) ->
        s2 = s1 /\ docCache s1 !! fnv64a p = Some d)
  /\ (forall d, docCache s !! fnv64a p = Some d ->
        r1 = Done (Ok d) /\ s1 = s)
  /\ (forall s', docCache s !! fnv64a p = None ->
        docCache s' !! fnv64a p = None ->
        fst (ProcessDocument w p s') = r1).
Proof.
  intros Hrun1 Hrun2.
  destruct (docCache s !! fnv64a p) as [d|] eqn:Hc.
  - (* served from the cache both times *)
    rewrite (ProcessDocument_hit w p s d Hc) in Hrun1.
    injection Hrun1 as <- <-.
    rewrite (ProcessDocument_hit w p s d Hc) in Hrun2.
    injection Hrun2 as <- <-.
    repeat split; try congruence.
  - destruct (ProcessDocument_miss w p s Hc)
      as (s1' & Hrun1' & Hcache & _).
    rewrite Hrun1' in Hrun1. injection Hrun1 as <- <-.
    destruct (extract w p) as [d|e] eqn:Hex.
    + (* computed, then served from the cache *)
      assert (Hhit : docCache s1' !! fnv64a p = Some d)
        by (rewrite Hcache; apply lookup_insert_eq).
      rewrite (ProcessDocument_hit w p s1' d Hhit) in Hrun2.
      injection Hrun2 as <- <-.
      repeat split; try congruence.
      intros s' _ Hc'. destruct (ProcessDocument_miss w p s' Hc') as (? & -> & _).
      simpl. now rewrite Hex.
    + (* the failure repeats *)
      assert (Hmiss : docCache s1' !! fnv64a p = None) by now rewrite Hcache.
      destruct (ProcessDocument_miss w p s1' Hmiss)
        as (s2' & Hrun2' & Hcache2 & _).
      rewrite Hrun2' in Hrun2. injection Hrun2 as <- <-.
      rewrite Hex in *.
      repeat split; try congruence.
      intros s' _ Hc'. destruct (ProcessDocument_miss w p s' Hc') as (? & -> & _).
      simpl. now rewrite Hex.
Qed.

Lemma ProcessDocument_idempotent_witness :
  let first := ProcessDocument sample_world "/r/xy/a.pdf" initial in
  let second := ProcessDocument sample_world "/r/xy/a.pdf" (snd first) in
  fst second = fst first /\ docCache (snd second) = docCache (snd first).
Proof.
  intros first second.
  destruct (ProcessDocument_idempotent sample_world "/r/xy/a.pdf" initial
              (snd first) (snd second) (fst first) (fst second))
    as (H1 & H2 & _).
  - vm_compute. reflexivity.
  - vm_compute. reflexivity.
  - split; [exact H1 | exact H2].
Defined.

(** ** The JSON of a record (C4) *)

(** C4.  The JSON object of a record has the members id, name, size,
    pages and content, in this order, and no other: the two fields tagged
    [timestamp] share their name, so the encoder drops both, and the
    field tagged ["-"], the path, is never encoded. *)
Theorem encode_ArchiveDoc_members (a : ArchiveDoc) :
  encode_ArchiveDoc a =
    Json.Obj [ ("id", Json.Num (Id a)); ("name", Json.Str (Name a));
               ("size", Json.Num (Size a)); ("pages", Json.Num (Pages a));
               ("content", Json.Str (Content a)) ]
  /\ Json.member "timestamp" (encode_ArchiveDoc a) = None
  /\ Json.keys (encode_ArchiveDoc a) = ["id"; "name"; "size"; "pages"; "content"].
Proof. repeat split. Qed.

(** With distinct tags both dates would be encoded. *)
Example distinct_tags_are_kept (a : ArchiveDoc) :
  Json.keys (Json.Marshal_struct
    [ {| Json.goName := "CreateDate"; Json.tag := "created";
         Json.value := Json.Timestamp (CreateDate a) |};
      {| Json.goName := "FileDate"; Json.tag := "timestamp";
         Json.value := Json.Timestamp (FileDate a) |} ])
  = ["created"; "timestamp"].
Proof. reflexivity. Qed.

(** ** [DocThumbnail], case by case *)

Ltac fields := cbn [docCache docThumbCache logged pdf_io written] in *.

Ltac run_thumbnail s :=
  unfold DocThumbnail, requested, complaint, serve in *;
  destruct s as [docs thumbs logs io out];
  destruct (ParseUint _) as [docId [err|]];
  unfold bind, when, not_nil, is_nil_ptr, lookupThumb, lookupDoc,
    log_Printf, respond, ret in *;
  simpl in *; fields.

(** The thumbnail is in the cache: its bytes are written, nothing else
    happens. *)
Lemma DocThumbnail_cached (w : World) (docIdStr : string) (s : Server)
    (t : ArchiveDocThumb) :
  docThumbCache s !! requested docIdStr = Some t ->
  exists s',
    serve (DocThumbnail w docIdStr) s = (Done tt, s')
    /\ written s' = complaint docIdStr ++ [Raw (Encoding t)]
    /\ pdf_io s' = pdf_io s
    /\ docCache s' = docCache s
    /\ docThumbCache s' = docThumbCache s.
Proof.
  intros Hthumb. run_thumbnail s; rewrite Hthumb;
    eexists; repeat split; reflexivity.
Qed.

(** Neither a thumbnail nor a record: the message is written and the
    handler goes on to read the path through the nil record. *)
Lemma DocThumbnail_unknown (w : World) (docIdStr : string) (s : Server) :
  docThumbCache s !! requested docIdStr = None ->
  docCache s !! requested docIdStr = None ->
  exists s',
    serve (DocThumbnail w docIdStr) s = (Panic nil_dereference, s')
    /\ written s' =
         complaint docIdStr ++ [Raw (unknown_document (requested docIdStr))]
    /\ pdf_io s' = pdf_io s
    /\ docCache s' = docCache s
    /\ docThumbCache s' = docThumbCache s.
Proof.
  intros Hthumb Hdoc. run_thumbnail s; rewrite Hthumb; simpl; fields; rewrite Hdoc; simpl; fields;
    eexists; repeat split; reflexivity.
Qed.

(** A record whose file poppler opens: the first page is rendered and
    encoded, the thumbnail stored and written. *)
Lemma DocThumbnail_render (w : World) (docIdStr : string) (s : Server)
    (d : ArchiveDoc) (ino : Inode) (pdfDoc : PdfDocument) :
  docThumbCache s !! requested docIdStr = None ->
  docCache s !! requested docIdStr = Some d ->
  files w !! FilePath d = Some ino ->
  pdf ino = inr pdfDoc ->
  let bytes := jpeg_Encode w (FirstPageRaster pdfDoc) in
  exists s',
    serve (DocThumbnail w docIdStr) s = (Done tt, s')
    /\ written s' = complaint docIdStr ++ [Raw bytes]
    /\ pdf_io s' =
         pdf_io s ++ [PdfOpen (FilePath d); PdfGetPage 0; PdfRender 300]
    /\ docCache s' = docCache s
    /\ docThumbCache s' =
         <[requested docIdStr :=
             {| ThumbId := requested docIdStr;
                Thumb := FirstPageRaster pdfDoc;
                Encoding := bytes |}]> (docThumbCache s).
Proof.
  intros Hthumb Hdoc Hfile Hpdf bytes. subst bytes.
  run_thumbnail s; rewrite Hthumb; simpl; fields; rewrite Hdoc; simpl; fields;
    unfold poppler_Open, bind, pdf_call, ret; simpl;
    rewrite Hfile; simpl; fields; rewrite Hpdf; simpl; fields;
    eexists; (split; [reflexivity|]); simpl;
    rewrite <- ?app_assoc; repeat split; reflexivity.
Qed.

(** A record whose file poppler no longer opens: the failure is logged
    and the handler goes on to use the nil document. *)
Lemma DocThumbnail_open_fails (w : World) (docIdStr : string) (s : Server)
    (d : ArchiveDoc) :
  docThumbCache s !! requested docIdStr = None ->
  docCache s !! requested docIdStr = Some d ->
  (forall ino, files w !! FilePath d = Some ino ->
               exists e, pdf ino = inl e) ->
  exists s',
    serve (DocThumbnail w docIdStr) s = (Panic nil_dereference, s')
    /\ written s' = complaint docIdStr
    /\ pdf_io s' = pdf_io s ++ [PdfOpen (FilePath d)]
    /\ docCache s' = docCache s
    /\ docThumbCache s' = docThumbCache s.
Proof.
  intros Hthumb Hdoc Hfail.
  run_thumbnail s; rewrite Hthumb; simpl; fields; rewrite Hdoc; simpl; fields;
    unfold poppler_Open, bind, pdf_call, ret; simpl;
    (destruct (files w !! FilePath d) as [ino|] eqn:Hfile;
     [destruct (Hfail ino eq_refl) as [e ->]|]); simpl;
    eexists; repeat split; reflexivity.
Qed.

(** ** What handlers keep true of the caches *)

(** A property of the two caches only. *)
Definition on_caches (P : Server -> Prop) : Prop :=
  forall s s', docCache s' = docCache s -> docThumbCache s' = docThumbCache s ->
               P s -> P s'.

(** A program keeps [P]: however it ends, [P] holds again. *)
Definition keeps (P : Server -> Prop) {A} (c : M A) : Prop :=
  forall s o s', c s = (o, s') -> P s -> P s'.

Section Keeps.
Context (P : Server -> Prop) (HP : on_caches P).

Lemma keeps_ret {A} (a : A) : keeps P (ret a).
Proof. intros s o s' [= _ <-]. auto. Qed.

Lemma keeps_bind {A B} (c : M A) (k : A -> M B) :
  keeps P c -> (forall a, keeps P (k a)) -> keeps P (bind c k).
Proof.
  intros Hc Hk s o s' Hrun Hs. unfold bind in Hrun.
  destruct (c s) as [[a|msg|code] s1] eqn:Hcs.
  - eapply Hk; eauto.
  - injection Hrun as _ <-. eauto.
  - injection Hrun as _ <-. eauto.
Qed.

Lemma keeps_log_Printf (line : string) : keeps P (log_Printf line).
Proof. intros s o s' [= _ <-]. apply (HP s); auto. Qed.

Lemma keeps_log_Fatal {A} (line : string) : keeps P (@log_Fatal A line).
Proof. intros s o s' [= _ <-]. apply (HP s); auto. Qed.

Lemma keeps_respond (c : Chunk) : keeps P (respond c).
Proof. intros s o s' [= _ <-]. apply (HP s); auto. Qed.

Lemma keeps_serve {A} (c : M A) (s : Server) (o : Outcome A) (s' : Server) :
  keeps P c -> serve c s = (o, s') -> P s -> P s'.
Proof.
  intros Hc Hrun Hs. unfold serve in Hrun. eapply Hc; [exact Hrun|].
  apply (HP s); auto.
Qed.

(** The loops of the two listings. *)
Lemma keeps_parse_docs (w : World) (archiveFiles : list string) :
  (forall p, keeps P (ProcessDocument w p)) ->
  forall archiveDocs, keeps P (parse_docs w archiveFiles archiveDocs).
Proof.
  intros HPD. induction archiveFiles as [|file rest IH]; intros acc; simpl.
  - apply keeps_ret.
  - apply keeps_bind; [apply HPD|]. intros [d|e]; [apply IH|].
    apply keeps_bind; [apply keeps_log_Printf | intros _; apply IH].
Qed.

Lemma keeps_AllDocs `{Sorter} (w : World) :
  (forall p, keeps P (ProcessDocument w p)) -> keeps P (AllDocs w).
Proof.
  intros HPD. unfold AllDocs.
  destruct (Filepath.Glob w _) as [archiveFiles [e|]];
    [apply keeps_log_Fatal|].
  repeat (apply keeps_bind; [apply keeps_log_Printf | intros _]).
  apply keeps_bind; [now apply keeps_parse_docs | intros docs].
  repeat (apply keeps_bind; [apply keeps_log_Printf | intros _]).
  apply keeps_bind; [apply keeps_respond | intros _; apply keeps_ret].
Qed.

Lemma keeps_list_categories (w : World) (archiveCategories : list string) :
  forall archiveCats, keeps P (list_categories w archiveCategories archiveCats).
Proof.
  induction archiveCategories as [|category rest IH]; intros acc; simpl.
  - apply keeps_ret.
  - destruct (Str.HasPrefix _ _); [apply IH|].
    destruct (os_Open w category) as [f|e]; [|apply keeps_log_Fatal].
    destruct (Stat f) as [fi|e]; [|apply keeps_log_Fatal].
    destruct (IsDir fi); [|apply IH].
    destruct (Filepath.Glob w _) as [fileinCat [e|]];
      [apply keeps_log_Fatal | apply IH].
Qed.

Lemma keeps_Categories (w : World) : keeps P (Categories w).
Proof.
  unfold Categories.
  destruct (Filepath.Glob w _) as [cats [e|]]; [apply keeps_log_Fatal|].
  apply keeps_bind; [apply keeps_log_Printf | intros _].
  apply keeps_bind; [apply keeps_list_categories | intros archiveCats].
  apply keeps_bind; [apply keeps_respond | intros _; apply keeps_ret].
Qed.

End Keeps.

(** ** The invariants of the caches *)

Lemma docs_keyed_on_caches : on_caches docs_keyed.
Proof. intros s s' Hd _ H id d. rewrite Hd. apply H. Qed.

Lemma thumbs_have_docs_on_caches : on_caches thumbs_have_docs.
Proof. intros s s' Hd Ht H id t. rewrite Hd, Ht. apply H. Qed.

Lemma docs_extracted_on_caches (w : World) : on_caches (docs_extracted w).
Proof. intros s s' Hd _ H id d. rewrite Hd. apply H. Qed.

(** The cache of a state after [ProcessDocument]: as it was, or with the
    extracted record added under a fingerprint that had none. *)
Lemma ProcessDocument_cache (w : World) (p : string) (s : Server)
    (o : Outcome (Result ArchiveDoc)) (s' : Server) :
  ProcessDocument w p s = (o, s') ->
  docThumbCache s' = docThumbCache s
  /\ (docCache s' = docCache s
      \/ exists d, docCache s !! fnv64a p = None /\ extract w p = Ok d
                   /\ docCache s' = <[fnv64a p := d]> (docCache s)).
Proof.
  intros Hrun. destruct (docCache s !! fnv64a p) as [d|] eqn:Hc.
  - rewrite (ProcessDocument_hit w p s d Hc) in Hrun.
    injection Hrun as _ <-. auto.
  - destruct (ProcessDocument_miss w p s Hc) as (s1 & Hrun1 & Hcache & Ht & _).
    rewrite Hrun1 in Hrun. injection Hrun as _ <-.
    split; [exact Ht|]. destruct (extract w p) as [d|e]; eauto.
Qed.

Lemma keeps_docs_keyed (w : World) (p : string) :
  keeps docs_keyed (ProcessDocument w p).
Proof.
  intros s o s' Hrun Hs.
  destruct (ProcessDocument_cache w p s o s' Hrun)
    as (_ & [Hsame | (d & Hc & Hex & Hins)]); intros id d'.
  - rewrite Hsame. apply Hs.
  - rewrite Hins. destruct (decide (fnv64a p = id)) as [<-|Hne].
    + rewrite lookup_insert_eq. intros [= <-]. now apply extract_Id in Hex.
    + rewrite lookup_insert_ne by exact Hne. apply Hs.
Qed.

Lemma keeps_thumbs_have_docs (w : World) (p : string) :
  keeps thumbs_have_docs (ProcessDocument w p).
Proof.
  intros s o s' Hrun Hs.
  destruct (ProcessDocument_cache w p s o s' Hrun)
    as (Ht & [Hsame | (d & Hc & Hex & Hins)]); intros id t; rewrite Ht.
  - rewrite Hsame. apply Hs.
  - intros Hid. rewrite Hins. destruct (decide (fnv64a p = id)) as [<-|Hne].
    + rewrite lookup_insert_eq. eauto.
    + rewrite lookup_insert_ne by exact Hne. eapply Hs, Hid.
Qed.

Lemma keeps_docs_extracted (w : World) (p : string) :
  keeps (docs_extracted w) (ProcessDocument w p).
Proof.
  intros s o s' Hrun Hs.
  destruct (ProcessDocument_cache w p s o s' Hrun)
    as (_ & [Hsame | (d & Hc & Hex & Hins)]); intros id d'.
  - rewrite Hsame. apply Hs.
  - rewrite Hins. destruct (decide (fnv64a p = id)) as [<-|Hne].
    + rewrite lookup_insert_eq. intros [= <-].
      destruct (extract_Id w p d Hex) as [_ Hpath]. now rewrite Hpath.
    + rewrite lookup_insert_ne by exact Hne. apply Hs.
Qed.

(** What [DocThumbnail] does to the caches, however it ends. *)
Lemma DocThumbnail_caches (w : World) (docIdStr : string) (s : Server)
    (o : Outcome unit) (s' : Server) :
  serve (DocThumbnail w docIdStr) s = (o, s') ->
  docCache s' = docCache s
  /\ (docThumbCache s' = docThumbCache s
      \/ exists t, is_Some (docCache s !! requested docIdStr)
                   /\ docThumbCache s' =
                        <[requested docIdStr := t]> (docThumbCache s)).
Proof.
  intros Hrun.
  destruct (docThumbCache s !! requested docIdStr) as [t|] eqn:Ht.
  { destruct (DocThumbnail_cached w docIdStr s t Ht) as (s1 & H1 & _ & _ & Hd & Hth).
    rewrite H1 in Hrun. injection Hrun as _ <-. auto. }
  destruct (docCache s !! requested docIdStr) as [d|] eqn:Hd.
  2:{ destruct (DocThumbnail_unknown w docIdStr s Ht Hd)
        as (s1 & H1 & _ & _ & Hd1 & Hth).
      rewrite H1 in Hrun. injection Hrun as _ <-. auto. }
  destruct (files w !! FilePath d) as [ino|] eqn:Hfile.
  - destruct (pdf ino) as [e|pdfDoc] eqn:Hpdf.
    + destruct (DocThumbnail_open_fails w docIdStr s d Ht Hd)
        as (s1 & H1 & _ & _ & Hd1 & Hth).
      { intros ino' Hino'. rewrite Hfile in Hino'. injection Hino' as <-. eauto. }
      rewrite H1 in Hrun. injection Hrun as _ <-. auto.
    + destruct (DocThumbnail_render w docIdStr s d ino pdfDoc Ht Hd Hfile Hpdf)
        as (s1 & H1 & _ & _ & Hd1 & Hth).
      rewrite H1 in Hrun. injection Hrun as _ <-.
      split; [exact Hd1|]. right. eexists. split; [eauto | exact Hth].
  - destruct (DocThumbnail_open_fails w docIdStr s d Ht Hd)
      as (s1 & H1 & _ & _ & Hd1 & Hth).
    { intros ino' Hino'. rewrite Hfile in Hino'. discriminate. }
    rewrite H1 in Hrun. injection Hrun as _ <-. auto.
Qed.

Lemma serve_bind_ret {A} (c : M A) (s : Server) (o : Outcome unit) (s' : Server) :
  serve (c >> ret tt) s = (o, s') ->
  exists o', serve c s = (o', s').
Proof.
  unfold serve, bind, ret. destruct (c _) as [[a|msg|code] s1];
    intros [= _ <-]; eauto.
Qed.

Section Reachable.
Context `{Sorter}.

(** Every state the server reaches keeps records under their own ids and
    thumbnails only for ids with a record. *)
Lemma reachable_invariant (W : World -> Prop) (s : Server) :
  reachable W s -> docs_keyed s /\ thumbs_have_docs s.
Proof.
  induction 1 as [|s w r o s' Hreach [IHk IHt] HW Hrun Hlive].
  - split; intros id x; unfold initial; simpl; rewrite lookup_empty; discriminate.
  - destruct r as [| |docIdStr]; simpl in Hrun.
    + apply serve_bind_ret in Hrun as [o' Hrun]. split.
      * eapply (keeps_serve docs_keyed docs_keyed_on_caches); eauto.
        apply keeps_AllDocs; [apply docs_keyed_on_caches|].
        intros p. apply keeps_docs_keyed.
      * eapply (keeps_serve thumbs_have_docs thumbs_have_docs_on_caches); eauto.
        apply keeps_AllDocs; [apply thumbs_have_docs_on_caches|].
        intros p. apply keeps_thumbs_have_docs.
    + apply serve_bind_ret in Hrun as [o' Hrun]. split.
      * eapply (keeps_serve docs_keyed docs_keyed_on_caches); eauto.
        apply keeps_Categories, docs_keyed_on_caches.
      * eapply (keeps_serve thumbs_have_docs thumbs_have_docs_on_caches); eauto.
        apply keeps_Categories, thumbs_have_docs_on_caches.
    + destruct (DocThumbnail_caches w docIdStr s o s' Hrun)
        as (Hd & [Hth | (t & Hsome & Hth)]).
      * split; [eapply docs_keyed_on_caches | eapply thumbs_have_docs_on_caches];
          eauto.
      * split; [intros id d; rewrite Hd; apply IHk|].
        intros id t'. rewrite Hth, Hd.
        destruct (decide (requested docIdStr = id)) as [<-|Hne].
        -- intros _. exact Hsome.
        -- rewrite lookup_insert_ne by exact Hne. apply IHt.
Qed.

(** With files that do not change, every record in the cache is what its
    path extracts to. *)
Lemma reachable_extracted (w : World) (s : Server) :
  reachable (fixed_world w) s -> docs_extracted w s.
Proof.
  induction 1 as [|s w' r o s' Hreach IH HW Hrun Hlive].
  - intros id x; unfold initial; simpl; rewrite lookup_empty; discriminate.
  - unfold fixed_world in HW. subst w'.
    destruct r as [| |docIdStr]; simpl in Hrun.
    + apply serve_bind_ret in Hrun as [o' Hrun].
      eapply (keeps_serve _ (docs_extracted_on_caches w)); eauto.
      apply keeps_AllDocs; [apply docs_extracted_on_caches|].
      intros p. apply keeps_docs_extracted.
    + apply serve_bind_ret in Hrun as [o' Hrun].
      eapply (keeps_serve _ (docs_extracted_on_caches w)); eauto.
      apply keeps_Categories, docs_extracted_on_caches.
    + destruct (DocThumbnail_caches w docIdStr s o s' Hrun) as (Hd & _).
      intros id d. rewrite Hd. apply IH.
Qed.

End Reachable.

(** ** Two implementations of [sort.Sort] *)

Section Sorting.
Context {A : Type} (less : A -> A -> bool).

Lemma insert_sorted_perm (x : A) (l : list A) :
  Permutation (x :: l) (insert_sorted less x l).
Proof.
  induction l as [|y l IH]; simpl; [reflexivity|].
  destruct (less y x); [|reflexivity].
  rewrite perm_swap. now apply perm_skip.
Qed.

Lemma insertion_sort_perm (l : list A) : Permutation l (insertion_sort less l).
Proof.
  induction l as [|x l IH]; simpl; [reflexivity|].
  rewrite <- insert_sorted_perm. now apply perm_skip.
Qed.



Context (Hless : LessOrder less).

Let ascending := StronglySorted (fun a b : A => less b a = false).

Lemma insert_sorted_ascending (x : A) (l : list A) :
  ascending l -> ascending (insert_sorted less x l).
Proof.
  unfold ascending. induction 1 as [|y l Hl IH Hy]; simpl.
  - repeat constructor.
  - destruct (less y x) eqn:Hyx.
    + constructor; [exact IH|].
      rewrite <- insert_sorted_perm. constructor; [|exact Hy].
      now apply (less_asym less Hless).
    + constructor; [now constructor|]. constructor; [exact Hyx|].
      eapply Forall_impl; [exact Hy|]. simpl. intros b Hb.
      now apply (less_negtrans less Hless x y b).
Qed.

Lemma insertion_sort_ascending (l : list A) : ascending (insertion_sort less l).
Proof.
  induction l as [|x l IH]; simpl; [constructor|].
  now apply insert_sorted_ascending.
Qed.



End Sorting.

(** Insertion sort, which is stable. *)
Definition insertion_sorter : Sorter :=
  {| sort_Sort := @insertion_sort;
     sort_Sort_perm := @insertion_sort_perm;
     sort_Sort_sorted := fun A less l H => insertion_sort_ascending less H l |}.



(** ** [AllDocs] *)

(** The loop of [AllDocs] returns, with the records of [scan_docs]. *)
Lemma parse_docs_scan (w : World) (archiveFiles : list string) :
  forall (archiveDocs : list ArchiveDoc) (s : Server),
  exists s',
    parse_docs w archiveFiles archiveDocs s
      = (Done (archiveDocs ++ scan_docs w (docCache s) archiveFiles), s')
    /\ docThumbCache s' = docThumbCache s
    /\ written s' = written s.
Proof.
  induction archiveFiles as [|file rest IH]; intros acc s; simpl.
  - exists s. now rewrite app_nil_r.
  - unfold bind. destruct (docCache s !! fnv64a file) as [d|] eqn:Hc.
    + rewrite (ProcessDocument_hit w file s d Hc).
      destruct (IH (acc ++ [d]) s) as (s' & Hrun & Ht & Hw).
      exists s'. rewrite Hrun, <- app_assoc. auto.
    + destruct (ProcessDocument_miss w file s Hc)
        as (s1 & Hrun1 & Hcache & Ht1 & _ & Hw1 & _).
      rewrite Hrun1. destruct (extract w file) as [d|e].
      * destruct (IH (acc ++ [d]) s1) as (s' & Hrun & Ht & Hw).
        exists s'. rewrite Hrun, Hcache, <- app_assoc.
        repeat split; congruence.
      * unfold log_Printf at 1.
        destruct (IH acc
                    {| docCache := docCache s1; docThumbCache := docThumbCache s1;
                       logged := logged s1
                                 ++ ["Error parsing document " +:+ file +:+ ": " +:+ e];
                       pdf_io := pdf_io s1; written := written s1 |})
          as (s' & Hrun & Ht & Hw).
        exists s'. rewrite Hrun. simpl in *. rewrite Hcache.
        repeat split; congruence.
Qed.

(** When the pattern of the archive is well formed, [AllDocs] returns the
    sorted records and writes their JSON array. *)
Lemma AllDocs_run `{Sorter} (w : World) (s : Server) (archiveFiles : list string) :
  Filepath.Glob w (archivePath w +:+ "/*/*.pdf") = (archiveFiles, None) ->
  let sorted := sort_Sort Less (scan_docs w (docCache s) archiveFiles) in
  exists s',
    serve (AllDocs w) s = (Done sorted, s')
    /\ written s' = [Encoded (encode_ArchiveDocs sorted)]
    /\ docThumbCache s' = docThumbCache s.
Proof.
  intros Hglob sorted. unfold serve, AllDocs. rewrite Hglob.
  unfold bind at 1. unfold log_Printf at 1.
  unfold bind at 1. unfold log_Printf at 1.
  unfold bind at 1. cbn [docCache docThumbCache logged pdf_io written].
  match goal with
  | |- context [parse_docs w archiveFiles [] ?s0] =>
      destruct (parse_docs_scan w archiveFiles [] s0) as (s1 & Hrun & Ht & Hw)
  end.
  rewrite Hrun. cbn [docCache docThumbCache logged pdf_io written] in *.
  simpl app. unfold bind, log_Printf, respond, ret. simpl.
  eexists. split; [reflexivity|]. simpl. rewrite Hw, Ht. auto.
Qed.





(** ** Thumbnails *)

(** C1.  In every state the server reaches, a thumbnail request for an id
    without a record in the document cache writes the message
    "Requesting unknown document: id" to the response (after the
    complaint about the id, if its text is not a number) and fails: the
    handler panics when it reads the path of the missing record, before
    any call to the PDF library.  Nothing is added to either cache. *)
Theorem DocThumbnail_unknown_document `{Sorter}
    (W : World -> Prop) (w : World) (docIdStr : string) (s : Server) :
  reachable W s ->
  docCache s !! requested docIdStr = None ->
  exists s',
    serve (DocThumbnail w docIdStr) s = (Panic nil_dereference, s')
    /\ written s' =
         complaint docIdStr ++ [Raw (unknown_document (requested docIdStr))]
    /\ pdf_io s' = pdf_io s
    /\ docThumbCache s' = docThumbCache s
    /\ docCache s' = docCache s.
Proof.
  intros Hreach Hdoc.
  destruct (reachable_invariant W s Hreach) as [_ Hthumbs].
  assert (Hthumb : docThumbCache s !! requested docIdStr = None).
  { destruct (docThumbCache s !! requested docIdStr) as [t|] eqn:Ht;
      [|reflexivity].
    destruct (Hthumbs _ _ Ht) as [d Hd]. congruence. }
  destruct (DocThumbnail_unknown w docIdStr s Hthumb Hdoc)
    as (s' & Hrun & Hw & Hio & Hd & Ht).
  exists s'. auto.
Qed.

(** The state after one listing of the sample archive. *)
Lemma sample_listed :
  @reachable insertion_sorter (fixed_world sample_world)
    (snd (serve (@handle insertion_sorter sample_world GetAllDocs) initial)).
Proof.
  eapply (@reachable_serve insertion_sorter) with (s := initial) (r := GetAllDocs).
  - constructor.
  - reflexivity.
  - apply surjective_pairing.
  - vm_compute. reflexivity.
Qed.

Lemma DocThumbnail_unknown_document_witness :
  let s := snd (serve (@handle insertion_sorter sample_world GetAllDocs) initial) in
  exists s',
    serve (DocThumbnail sample_world "42") s = (Panic nil_dereference, s')
    /\ written s' = [Raw "Requesting unknown document: 42"]
    /\ pdf_io s' = pdf_io s
    /\ docThumbCache s' = docThumbCache s.
Proof.
  intros s.
  destruct (@DocThumbnail_unknown_document insertion_sorter
              (fixed_world sample_world) sample_world "42" s)
    as (s' & Hrun & Hw & Hio & Ht & _).
  - exact sample_listed.
  - vm_compute. reflexivity.
  - exists s'. auto.
Defined.

(** Two requests in a row, when the thumbnail is cached or can be
    rendered. *)
Lemma DocThumbnail_twice (w : World) (docIdStr : string) (s : Server) :
  (is_Some (docThumbCache s !! requested docIdStr)
   \/ exists d ino pdfDoc,
        docCache s !! requested docIdStr = Some d
        /\ files w !! FilePath d = Some ino /\ pdf ino = inr pdfDoc) ->
  exists s1 s2 t,
    serve (DocThumbnail w docIdStr) s = (Done tt, s1)
    /\ serve (DocThumbnail w docIdStr) s1 = (Done tt, s2)
    /\ docThumbCache s1 !! requested docIdStr = Some t
    /\ written s1 = complaint docIdStr ++ [Raw (Encoding t)]
    /\ written s2 = written s1
    /\ pdf_io s2 = pdf_io s1
    /\ docThumbCache s2 = docThumbCache s1
    /\ docCache s2 = docCache s1.
Proof.
  intros [[t Ht] | (d & ino & pdfDoc & Hd & Hfile & Hpdf)].
  - destruct (DocThumbnail_cached w docIdStr s t Ht)
      as (s1 & Hrun1 & Hw1 & Hio1 & Hd1 & Ht1).
    assert (Ht' : docThumbCache s1 !! requested docIdStr = Some t)
      by now rewrite Ht1.
    destruct (DocThumbnail_cached w docIdStr s1 t Ht')
      as (s2 & Hrun2 & Hw2 & Hio2 & Hd2 & Ht2).
    exists s1, s2, t. repeat split; congruence.
  - destruct (docThumbCache s !! requested docIdStr) as [t|] eqn:Ht.
    + destruct (DocThumbnail_cached w docIdStr s t Ht)
        as (s1 & Hrun1 & Hw1 & Hio1 & Hd1 & Ht1).
      assert (Ht' : docThumbCache s1 !! requested docIdStr = Some t)
        by now rewrite Ht1.
      destruct (DocThumbnail_cached w docIdStr s1 t Ht')
        as (s2 & Hrun2 & Hw2 & Hio2 & Hd2 & Ht2).
      exists s1, s2, t. repeat split; congruence.
    + destruct (DocThumbnail_render w docIdStr s d ino pdfDoc Ht Hd Hfile Hpdf)
        as (s1 & Hrun1 & Hw1 & Hio1 & Hd1 & Ht1).
      set (t := {| ThumbId := requested docIdStr;
                   Thumb := FirstPageRaster pdfDoc;
                   Encoding := jpeg_Encode w (FirstPageRaster pdfDoc) |}) in *.
      assert (Ht' : docThumbCache s1 !! requested docIdStr = Some t)
        by (rewrite Ht1; apply lookup_insert_eq).
      destruct (DocThumbnail_cached w docIdStr s1 t Ht')
        as (s2 & Hrun2 & Hw2 & Hio2 & Hd2 & Ht2).
      exists s1, s2, t. repeat split; try congruence; try exact Hw1.
      rewrite Hw1, Hw2. reflexivity.
Qed.

(** C8.  With files that do not change, in every state the server
    reaches and for every id with a record in the document cache, two
    thumbnail requests in a row return and write the same bytes; after
    the first the thumbnail cache holds the id, and the second writes the
    cached bytes without a call to the PDF library and leaves both caches
    as they are. *)
Theorem DocThumbnail_cached_after_first `{Sorter}
    (w : World) (docIdStr : string) (s : Server) (d : ArchiveDoc) :
  reachable (fixed_world w) s ->
  docCache s !! requested docIdStr = Some d ->
  exists s1 s2 t,
    serve (DocThumbnail w docIdStr) s = (Done tt, s1)
    /\ serve (DocThumbnail w docIdStr) s1 = (Done tt, s2)
    /\ written s2 = written s1
    /\ docThumbCache s1 !! requested docIdStr = Some t
    /\ written s2 = complaint docIdStr ++ [Raw (Encoding t)]
    /\ pdf_io s2 = pdf_io s1
    /\ docThumbCache s2 = docThumbCache s1
    /\ docCache s2 = docCache s1.
Proof.
  intros Hreach Hd.
  destruct (reachable_extracted w s Hreach _ _ Hd) as [_ Hex].
  assert (Hopens : exists ino pdfDoc,
             files w !! FilePath d = Some ino /\ pdf ino = inr pdfDoc).
  { unfold extract, os_Open in Hex.
    destruct (files w !! FilePath d) as [ino|]; [|discriminate].
    destruct (openErr ino); [discriminate|].
    unfold Stat in Hex. destruct (statErr ino); [discriminate|].
    destruct (pdf ino) as [e|pdfDoc] eqn:Hpdf; [discriminate|]. eauto. }
  destruct Hopens as (ino & pdfDoc & Hfile & Hpdf).
  destruct (DocThumbnail_twice w docIdStr s) as (s1 & s2 & t & H1 & H2 & H3 & H4 & H5 & H6 & H7 & H8).
  { right. eauto 6. }
  exists s1, s2, t. repeat split; congruence.
Qed.

Lemma DocThumbnail_cached_after_first_witness :
  let s := snd (serve (@handle insertion_sorter sample_world GetAllDocs) initial) in
  exists s1 s2,
    serve (DocThumbnail sample_world "12606778972297040078") s = (Done tt, s1)
    /\ serve (DocThumbnail sample_world "12606778972297040078") s1 = (Done tt, s2)
    /\ written s2 = written s1
    /\ written s2 = [Raw "JFIF raster of a"]
    /\ pdf_io s2 = pdf_io s1.
Proof.
  intros s.
  destruct (@DocThumbnail_cached_after_first insertion_sorter sample_world
              "12606778972297040078" s
              {| Id := 12606778972297040078; Name := "a.pdf"; Size := 10;
                 CreateDate := 7; FileDate := 7; Pages := 2; Content := "YQ==";
                 FilePath := "/r/xy/a.pdf" |})
    as (s1 & s2 & t & Hrun1 & Hrun2 & Hsame & Ht & Hw & Hio & _).
  - exact sample_listed.
  - vm_compute. reflexivity.
  - exists s1, s2. repeat split; auto.
    rewrite Hw.
    assert (Hfst : snd (serve (DocThumbnail sample_world "12606778972297040078") s)
                   = s1) by now rewrite Hrun1.
    rewrite <- Hfst in Ht. vm_compute in Ht. injection Ht as <-.
    reflexivity.
Defined.

(** ** [Categories]: an entry that cannot be opened *)

(** The loop ends the process at the first entry that is not hidden and
    cannot be opened or statted, unless a bad pattern ended it before. *)
Lemma list_categories_fatal (w : World) (category e : string)
    (archiveCategories : list string) :
  category ∈ archiveCategories ->
  is_hidden (Path.Base category) = false ->
  (os_Open w category = Err e
   \/ exists f, os_Open w category = Ok f /\ Stat f = Err e) ->
  forall (archiveCats : list ArchiveCategory) (s : Server),
  exists e' s',
    list_categories w archiveCategories archiveCats s = (Exit 1, s')
    /\ logged s' = logged s ++ [category_error e']
    /\ written s' = written s
    /\ docCache s' = docCache s
    /\ docThumbCache s' = docThumbCache s.
Proof.
  intros Hin Hshown Hfail.
  induction archiveCategories as [|c rest IH]; intros acc s.
  - now apply elem_of_nil in Hin.
  - assert (Hfatal : forall e0, exists e' s',
              @log_Fatal (list ArchiveCategory) (category_error e0) s = (Exit 1, s')
              /\ logged s' = logged s ++ [category_error e']
              /\ written s' = written s
              /\ docCache s' = docCache s
              /\ docThumbCache s' = docThumbCache s).
    { intros e0. eexists e0, _. unfold log_Fatal. repeat split. }
    apply elem_of_cons in Hin as [<- | Hin].
    + simpl. unfold is_hidden in Hshown. rewrite Hshown.
      destruct Hfail as [Hopen | (f & Hopen & Hstat)]; rewrite Hopen;
        [|rewrite Hstat]; apply Hfatal.
    + specialize (IH Hin). simpl.
      destruct (Str.HasPrefix _ _); [apply IH|].
      destruct (os_Open w c) as [f|e0]; [|apply Hfatal].
      destruct (Stat f) as [fi|e0]; [|apply Hfatal].
      destruct (IsDir fi); [|apply IH].
      destruct (Filepath.Glob w _) as [fileinCat [e0|]];
        [apply Hfatal | apply IH].
Qed.

(** C2 as written fails on the archive with the locked category: the
    listing does not return, the process exits with status 1 and nothing
    has been written. *)
Lemma Categories_locked_exits :
  os_Open locked_world "/r/locked" = Err "open /r/locked: permission denied"
  /\ fst (serve (Categories locked_world) initial) = Exit 1
  /\ written (snd (serve (Categories locked_world) initial)) = []
  /\ ~ (exists archiveCats s',
          serve (Categories locked_world) initial = (Done archiveCats, s')).
Proof.
  split; [vm_compute; reflexivity|].
  split; [vm_compute; reflexivity|].
  split; [vm_compute; reflexivity|].
  intros (archiveCats & s' & Hrun).
  assert (Hfst : fst (serve (Categories locked_world) initial) = Done archiveCats)
    by now rewrite Hrun.
  vm_compute in Hfst. discriminate Hfst.
Qed.

(** C2 (amended).  When an entry of the archive root that is not hidden
    cannot be opened, or its stat fails, the listing is not returned:
    [Categories] logs a line through [log.Fatal] and the process exits
    with status 1, nothing having been written to the response and the
    caches unchanged. *)
Theorem Categories_entry_failure_is_fatal
    (w : World) (s : Server) (archiveCategories : list string)
    (category e : string) :
  Filepath.Glob w (archivePath w +:+ "/*") = (archiveCategories, None) ->
  category ∈ archiveCategories ->
  is_hidden (Path.Base category) = false ->
  (os_Open w category = Err e
   \/ exists f, os_Open w category = Ok f /\ Stat f = Err e) ->
  exists e' s',
    serve (Categories w) s = (Exit 1, s')
    /\ last (logged s') = Some (category_error e')
    /\ written s' = []
    /\ docCache s' = docCache s
    /\ docThumbCache s' = docThumbCache s.
Proof.
  intros Hglob Hin Hshown Hfail.
  unfold serve, Categories. rewrite Hglob.
  unfold bind at 1. unfold log_Printf at 1. cbn beta iota.
  unfold bind at 1.
  match goal with
  | |- context [list_categories w archiveCategories [] ?s0] =>
      destruct (list_categories_fatal w category e archiveCategories
                  Hin Hshown Hfail [] s0)
        as (e' & s' & Hrun & Hlog & Hw & Hd & Ht)
  end.
  exists e', s'. rewrite Hrun. simpl in *.
  split; [reflexivity|]. rewrite Hlog, last_snoc. auto.
Qed.

Lemma Categories_entry_failure_is_fatal_witness :
  exists e' s',
    serve (Categories locked_world) initial = (Exit 1, s')
    /\ last (logged s') = Some (category_error e')
    /\ written s' = [].
Proof.
  destruct (Categories_entry_failure_is_fatal locked_world initial
              ["/r/.h"; "/r/locked"; "/r/notes.pdf"; "/r/x*"; "/r/xy"]
              "/r/locked" "open /r/locked: permission denied")
    as (e' & s' & Hrun & Hlog & Hw & _).
  - vm_compute. reflexivity.
  - vm_compute. now right; left.
  - vm_compute. reflexivity.
  - left. vm_compute. reflexivity.
  - exists e', s'. auto.
Defined.

(** ** [Match] on the patterns of the server *)

Import Filepath.

Lemma hasMeta_is_meta (p : string) : hasMeta p = existsb is_meta (Str.bytes p).
Proof. reflexivity. Qed.

Lemma is_meta_false (c : ascii) :
  is_meta c = false ->
  Ascii.eqb c "*" = false /\ Ascii.eqb c "?" = false
  /\ Ascii.eqb c "[" = false /\ Ascii.eqb c "\" = false.
Proof.
  unfold is_meta. simpl. rewrite !orb_false_iff. tauto.
Qed.

(** A chunk without special characters matches as a literal prefix. *)
Lemma matchChunk_go_literal (chunk : list ascii) :
  existsb is_meta chunk = false ->
  forall (fuel : nat) (s : list ascii) (failed : bool),
    (length chunk < fuel)%nat ->
    matchChunk_go fuel chunk s failed =
      if failed then ChunkFail
      else match Str.strip_prefix chunk s with
           | Some t => ChunkOk t
           | None => ChunkFail
           end.
Proof.
  induction chunk as [|c chunk IH]; intros Hplain fuel s failed Hfuel.
  - destruct fuel; [simpl in Hfuel; lia|]. simpl. now destruct failed.
  - simpl in Hplain. apply orb_false_iff in Hplain as [Hc Hchunk].
    destruct (is_meta_false c Hc) as (_ & Hq & Hb & He).
    destruct fuel as [|fuel]; [simpl in Hfuel; lia|].
    simpl in Hfuel. cbn [matchChunk_go]. rewrite Hb, Hq, He.
    destruct s as [|x s]; simpl.
    + rewrite orb_true_r, IH by (auto; lia). now destruct failed.
    + rewrite orb_false_r. destruct failed.
      * now rewrite IH by (auto; lia).
      * rewrite IH by (auto; lia). now destruct (Ascii.eqb c x).
Qed.

Lemma matchChunk_literal (chunk s : list ascii) :
  existsb is_meta chunk = false ->
  matchChunk chunk s =
    match Str.strip_prefix chunk s with
    | Some t => ChunkOk t
    | None => ChunkFail
    end.
Proof.
  intros Hplain. unfold matchChunk.
  now rewrite matchChunk_go_literal by (auto; lia).
Qed.

(** A plain text in front of a star is the first chunk. *)
Lemma scan_plain (l r : list ascii) :
  existsb is_meta l = false ->
  scan false (l ++ star :: r) = (l, star :: r).
Proof.
  induction l as [|c l IH]; intros Hplain.
  - reflexivity.
  - simpl in Hplain. apply orb_false_iff in Hplain as [Hc Hl].
    destruct (is_meta_false c Hc) as (Hs & _ & Hb & He).
    simpl. unfold star in *. rewrite He, Hb, Hs, (IH Hl).
    now destruct (Ascii.eqb c "]").
Qed.

Lemma scanChunk_plain (l r : list ascii) :
  l <> [] -> existsb is_meta l = false ->
  scanChunk (l ++ star :: r) = (false, l, star :: r).
Proof.
  intros Hne Hplain. destruct l as [|c l]; [congruence|].
  unfold scanChunk.
  assert (Hskip : skip_stars ((c :: l) ++ star :: r) = (false, (c :: l) ++ star :: r)).
  { simpl in Hplain. apply orb_false_iff in Hplain as [Hc _].
    destruct (is_meta_false c Hc) as (Hs & _). simpl. unfold star. now rewrite Hs. }
  rewrite Hskip, scan_plain by exact Hplain. reflexivity.
Qed.

(** Such a pattern does not match the empty name, and is well formed if
    what follows the plain text is. *)
Lemma Match_go_plain_star (l r : list ascii) (fuel : nat) :
  l <> [] -> existsb is_meta l = false ->
  check_rest (S (length r)) (star :: r) = Some false ->
  Match_go (S fuel) (l ++ star :: r) [] = Some false.
Proof.
  intros Hne Hplain Hrest.
  destruct (l ++ star :: r) as [|c0 p0] eqn:Hpat;
    [destruct l; discriminate|].
  cbn [Match_go]. rewrite <- Hpat.
  rewrite scanChunk_plain, matchChunk_literal by assumption.
  destruct l as [|c l]; [congruence|]. exact Hrest.
Qed.

Lemma strip_prefix_Some (p l t : list ascii) :
  Str.strip_prefix p l = Some t <-> l = p ++ t.
Proof.
  revert l. induction p as [|a p IH]; intros l; simpl.
  - split; congruence.
  - destruct l as [|b l]; [split; discriminate|].
    destruct (Ascii.eqb_spec a b) as [->|Hne].
    + rewrite IH. split; congruence.
    + split; [discriminate | congruence].
Qed.

Lemma strip_prefix_app (p t : list ascii) : Str.strip_prefix p (p ++ t) = Some t.
Proof. now apply strip_prefix_Some. Qed.

Lemma ends_with_iff (suffix l : list ascii) :
  ends_with suffix l = true <-> exists g, l = g ++ suffix.
Proof.
  split.
  - induction l as [|c l IH]; simpl.
    + destruct (Str.strip_prefix suffix []) as [[|]|] eqn:Hs; try discriminate.
      apply strip_prefix_Some in Hs. intros _. exists []. now rewrite app_nil_r in Hs.
    + destruct (Str.strip_prefix suffix (c :: l)) as [[|x t]|] eqn:Hs.
      * apply strip_prefix_Some in Hs. intros _. exists [].
        now rewrite app_nil_r in Hs.
      * intros H. destruct (IH H) as [g ->]. now exists (c :: g).
      * intros H. destruct (IH H) as [g ->]. now exists (c :: g).
  - intros [g ->]. induction g as [|c g IH]; simpl.
    + assert (Hs : Str.strip_prefix suffix suffix = Some []).
      { apply strip_prefix_Some. now rewrite app_nil_r. }
      destruct suffix; simpl in *; now rewrite ?Hs.
    + rewrite IH. now destruct (Str.strip_prefix suffix (c :: g ++ suffix)) as [[|]|].
Qed.

(** [*] matches every name without a slash, hidden or not. *)
Lemma Match_star (n : string) :
  Match "*" n = Some (negb (Str.has_slash (Str.bytes n))).
Proof. reflexivity. Qed.

Lemma star_loop_literal (lit : list ascii) :
  existsb is_meta lit = false ->
  forall name, Str.has_slash name = false ->
    star_loop lit true name =
      if match name with [] => false | _ :: name' => ends_with lit name' end
      then StarNext [] else StarFail.
Proof.
  intros Hplain. induction name as [|c name IH]; intros Hslash.
  - reflexivity.
  - simpl in Hslash. apply orb_false_iff in Hslash as [Hc Hname].
    cbn [star_loop]. rewrite Hc, matchChunk_literal by exact Hplain.
    specialize (IH Hname).
    destruct name as [|c' name'].
    + simpl. destruct (Str.strip_prefix lit []) as [[|x t]|]; reflexivity.
    + cbn [ends_with]. cbn [ends_with] in IH.
      destruct (Str.strip_prefix lit (c' :: name')) as [[|x t]|];
        simpl; try reflexivity; exact IH.
Qed.

(** [*.pdf] matches the names with that suffix, and is never a bad
    pattern. *)
Lemma Match_pdf (n : string) :
  Str.has_slash (Str.bytes n) = false ->
  Match "*.pdf" n = Some (is_pdf_name n).
Proof.
  intros Hslash. unfold Match, is_pdf_name.
  set (name := Str.bytes n) in *.
  change (Str.bytes "*.pdf") with (star :: Str.bytes ".pdf").
  set (lit := Str.bytes ".pdf").
  assert (Hplain : existsb is_meta lit = false) by reflexivity.
  change (Match_go (S (length (star :: lit))) (star :: lit) name)
    with (let skip :=
            match star_loop lit true name with
            | StarErr => None
            | StarFail => Some false
            | StarNext t => Some (is_nil t)
            end in
          match matchChunk lit name with
          | ChunkOk t => if is_nil t || false then Some (is_nil t) else skip
          | ChunkErr => None
          | ChunkFail => skip
          end).
  cbv zeta.
  rewrite matchChunk_literal, star_loop_literal by assumption.
  destruct name as [|c name'].
  - simpl. destruct (Str.strip_prefix lit []) as [[|x t]|]; reflexivity.
  - cbn [ends_with].
    destruct (Str.strip_prefix lit (c :: name')) as [[|x t]|]; simpl;
      try reflexivity; now destruct (ends_with lit name').
Qed.

(** ** The entries of a directory *)

Lemma has_slash_app (l1 l2 : list ascii) :
  Str.has_slash (l1 ++ l2) = Str.has_slash l1 || Str.has_slash l2.
Proof. apply existsb_app. Qed.

Lemma bytes_nil (s : string) : Str.bytes s = [] -> s = "".
Proof. intros E. apply bytes_inj. exact E. Qed.

Lemma child_name_Join (dir n : string) :
  entry_name n -> child_name dir (Join dir n) = Some n.
Proof.
  intros [Hne Hslash]. unfold child_name, Join.
  rewrite bytes_app, strip_prefix_app, Hslash, of_bytes_bytes.
  destruct (Str.bytes n) eqn:Hn; [|reflexivity].
  now apply bytes_nil in Hn.
Qed.

Lemma child_name_Some (dir p n : string) :
  child_name dir p = Some n -> p = Join dir n /\ entry_name n.
Proof.
  unfold child_name, Join, entry_name.
  destruct (Str.strip_prefix _ _) as [l|] eqn:Hs; [|discriminate].
  apply strip_prefix_Some in Hs.
  destruct l as [|c l]; [simpl; discriminate|].
  change (is_nil (c :: l) || Str.has_slash (c :: l))
    with (Str.has_slash (c :: l)).
  destruct (Str.has_slash (c :: l)) eqn:Hslash; [discriminate|].
  intros Hsome.
  assert (Hn : n = Str.of_bytes (c :: l)) by congruence.
  clear Hsome. subst n. rewrite bytes_of_bytes. repeat split.
  - apply bytes_inj. now rewrite bytes_app, bytes_of_bytes.
  - intros E. apply (f_equal Str.bytes) in E. now rewrite bytes_of_bytes in E.
  - exact Hslash.
Qed.

(** The names [Readdirnames] returns are the entries of the directory. *)
Lemma elem_of_Readdirnames (w : World) (dir n : string) :
  n ∈ Readdirnames w dir <->
  entry_name n /\ is_Some (files w !! Join dir n).
Proof.
  unfold Readdirnames. rewrite <- insertion_sort_perm.
  rewrite list_elem_of_omap. split.
  - intros (p & Hp & Hchild). apply child_name_Some in Hchild as [-> Hn].
    split; [exact Hn|]. apply list_elem_of_In, in_map_iff in Hp.
    destruct Hp as ([p' ino] & Hfst & Hin). simpl in Hfst. subst p'.
    apply list_elem_of_In, elem_of_map_to_list in Hin. eauto.
  - intros [Hn [ino Hino]]. exists (Join dir n). split.
    + apply list_elem_of_In, in_map_iff. exists (Join dir n, ino).
      split; [reflexivity|]. now apply list_elem_of_In, elem_of_map_to_list.
    + now apply child_name_Join.
Qed.

Lemma Readdirnames_no_slash (w : World) (dir n : string) :
  n ∈ Readdirnames w dir -> Str.has_slash (Str.bytes n) = false.
Proof. intros H. now apply elem_of_Readdirnames in H as [[_ ?] _]. Qed.

(** ** [glob] in one directory *)

Lemma glob_names_filter (dir pattern : string) (f : string -> bool)
    (names : list string) :
  (forall n, n ∈ names -> Match pattern n = Some (f n)) ->
  forall m, glob_names dir pattern names m
            = (m ++ map (Join dir) (List.filter f names), None).
Proof.
  induction names as [|n names IH]; intros Hmatch m; simpl.
  - now rewrite app_nil_r.
  - rewrite (Hmatch n) by (left).
    assert (Hrest : forall n', n' ∈ names -> Match pattern n' = Some (f n'))
      by (intros n' Hn'; apply Hmatch; now right).
    destruct (f n).
    + rewrite (IH Hrest). simpl. now rewrite <- app_assoc.
    + apply (IH Hrest).
Qed.

Lemma openable_dir_true (w : World) (dir : string) :
  openable_dir w dir = true <-> directory_at w dir.
Proof.
  unfold openable_dir, directory_at. split.
  - destruct (files w !! dir) as [ino|]; [|discriminate].
    destruct (kind ino) eqn:Hk; [discriminate|].
    destruct (openErr ino) eqn:Ho; [discriminate|]. eauto.
  - intros (ino & -> & -> & ->). reflexivity.
Qed.

Lemma glob_filter (w : World) (dir pattern : string) (f : string -> bool)
    (m : list string) :
  (forall n, n ∈ Readdirnames w dir -> Match pattern n = Some (f n)) ->
  glob w dir pattern m =
    (m ++ if openable_dir w dir
          then map (Join dir) (List.filter f (Readdirnames w dir)) else [],
     None).
Proof.
  intros Hmatch. unfold glob, openable_dir.
  destruct (files w !! dir) as [ino|]; [|now rewrite app_nil_r].
  destruct (kind ino); [now rewrite app_nil_r|].
  destruct (openErr ino); [now rewrite app_nil_r|].
  now apply glob_names_filter.
Qed.

(** Every entry of a directory the server can open, for the pattern [*]. *)
Lemma glob_star (w : World) (dir : string) (m : list string) :
  glob w dir "*" m =
    (m ++ if openable_dir w dir
          then map (Join dir) (Readdirnames w dir) else [], None).
Proof.
  rewrite (glob_filter w dir "*" (fun _ => true)).
  - f_equal. f_equal. destruct (openable_dir w dir); [|reflexivity].
    f_equal. induction (Readdirnames w dir); simpl; congruence.
  - intros n Hn. rewrite Match_star.
    now rewrite (Readdirnames_no_slash w dir n Hn).
Qed.

(** The entries with the suffix [.pdf], for the pattern [*.pdf]. *)
Lemma glob_pdf (w : World) (dir : string) (m : list string) :
  glob w dir "*.pdf" m =
    (m ++ if openable_dir w dir
          then map (Join dir) (List.filter is_pdf_name (Readdirnames w dir))
          else [], None).
Proof.
  apply glob_filter. intros n Hn. apply Match_pdf.
  exact (Readdirnames_no_slash w dir n Hn).
Qed.

Lemma pdf_paths_eq (w : World) (dir : string) :
  pdf_paths w dir =
    if openable_dir w dir
    then map (Join dir) (List.filter is_pdf_name (Readdirnames w dir)) else [].
Proof. unfold pdf_paths. now rewrite glob_pdf. Qed.


(** ** [Glob] on the patterns of the server *)

Lemma until_slash_app (l r : list ascii) :
  Str.has_slash l = false ->
  Path.until_slash (l ++ Str.slash :: r) = l.
Proof.
  induction l as [|c l IH]; simpl; intros H.
  - reflexivity.
  - apply orb_false_iff in H as [Hc Hl]. now rewrite Hc, IH.
Qed.

Lemma has_slash_rev (l : list ascii) : Str.has_slash (rev l) = Str.has_slash l.
Proof.
  induction l as [|c l IH]; [reflexivity|].
  simpl. rewrite has_slash_app, IH. simpl.
  rewrite orb_false_r. apply orb_comm.
Qed.

Lemma Split_dir_file (a file : string) :
  Str.has_slash (Str.bytes file) = false ->
  Split (a +:+ "/" +:+ file) = (a +:+ "/", file).
Proof.
  intros Hfile. unfold Split.
  assert (Hrev : rev (Str.bytes (a +:+ "/" +:+ file))
                 = rev (Str.bytes file) ++ Str.slash :: rev (Str.bytes a)).
  { rewrite !bytes_app. change (Str.bytes "/") with [Str.slash].
    rewrite !rev_app_distr. simpl. now rewrite <- app_assoc. }
  rewrite Hrev.
  rewrite until_slash_app by now rewrite has_slash_rev.
  rewrite skipn_app, skipn_all, Nat.sub_diag. simpl.
  rewrite !rev_involutive. f_equal.
  - apply bytes_inj. now rewrite bytes_of_bytes, bytes_app.
  - apply of_bytes_bytes.
Qed.

Lemma cleanGlobPath_dir (a : string) :
  a <> "" -> cleanGlobPath (a +:+ "/") = a.
Proof.
  intros Hne. unfold cleanGlobPath. rewrite bytes_app.
  change (Str.bytes "/") with [Str.slash].
  destruct (Str.bytes a) as [|c l] eqn:Ha; [now apply bytes_nil in Ha|].
  destruct l as [|c' l]; simpl app.
  - apply bytes_inj. now rewrite bytes_of_bytes, Ha.
  - cbv iota.
    change (c :: c' :: l ++ [Str.slash]) with ((c :: c' :: l) ++ [Str.slash]).
    rewrite removelast_last.
    apply bytes_inj. now rewrite bytes_of_bytes, Ha.
Qed.

Lemma existsb_is_meta_dir (dir : string) :
  plain dir -> existsb is_meta (Str.bytes dir ++ [Str.slash]) = false.
Proof.
  unfold plain. rewrite hasMeta_is_meta, existsb_app. now intros ->.
Qed.


(** A pattern made of a plain directory and a last element that starts
    with a star is looked up in that directory. *)
Lemma Glob_go_in_dir (w : World) (dir file : string) (r : list ascii)
    (fuel : nat) :
  dir <> "" -> plain dir ->
  Str.has_slash (Str.bytes file) = false ->
  Str.bytes file = star :: r ->
  check_rest (S (length r)) (star :: r) = Some false ->
  Glob_go (S fuel) w (dir +:+ "/" +:+ file) = glob w dir file [].
Proof.
  intros Hne Hplain Hslash Hfile Hrest.
  assert (Hbytes : Str.bytes (dir +:+ "/" +:+ file)
                   = (Str.bytes dir ++ [Str.slash]) ++ star :: r).
  { rewrite !bytes_app, Hfile, <- app_assoc. reflexivity. }
  assert (Hwf : Match (dir +:+ "/" +:+ file) "" = Some false).
  { unfold Match. rewrite Hbytes. apply Match_go_plain_star.
    - destruct (Str.bytes dir); discriminate.
    - now apply existsb_is_meta_dir.
    - exact Hrest. }
  assert (Hmeta : hasMeta (dir +:+ "/" +:+ file) = true).
  { rewrite hasMeta_is_meta, Hbytes, existsb_app. simpl.
    now rewrite orb_true_r. }
  cbn [Glob_go]. rewrite Hwf, Hmeta. simpl negb. cbv iota.
  rewrite Split_dir_file by exact Hslash.
  rewrite cleanGlobPath_dir by exact Hne.
  unfold plain in Hplain. now rewrite Hplain.
Qed.

Lemma Glob_in_dir (w : World) (dir file : string) (r : list ascii) :
  dir <> "" -> plain dir ->
  Str.has_slash (Str.bytes file) = false ->
  Str.bytes file = star :: r ->
  check_rest (S (length r)) (star :: r) = Some false ->
  Glob w (dir +:+ "/" +:+ file) = glob w dir file [].
Proof.
  intros. unfold Glob. apply (Glob_go_in_dir w dir file r); assumption.
Qed.

(** [Glob(root + "/*")]: the entries of the root, hidden ones too. *)
Lemma Glob_entries (w : World) (root : string) :
  root <> "" -> plain root ->
  Glob w (root +:+ "/*") =
    (if openable_dir w root
     then map (Join root) (Readdirnames w root) else [], None).
Proof.
  intros Hne Hplain.
  change (root +:+ "/*") with (root +:+ "/" +:+ "*").
  rewrite (Glob_in_dir w root "*" []) by (auto; reflexivity).
  now rewrite glob_star.
Qed.

(** [Glob(dir + "/*.pdf")] for a plain [dir]. *)
Lemma Glob_pdfs_in (w : World) (dir : string) :
  dir <> "" -> plain dir ->
  Glob w (dir +:+ "/*.pdf") = (pdf_paths w dir, None).
Proof.
  intros Hne Hplain.
  change (dir +:+ "/*.pdf") with (dir +:+ "/" +:+ "*.pdf").
  rewrite (Glob_in_dir w dir "*.pdf" (Str.bytes ".pdf")) by (auto; reflexivity).
  now rewrite glob_pdf, pdf_paths_eq.
Qed.




(** ** Hidden directories (C10) *)







(** ** The listing of categories (C9) *)

Lemma until_slash_no_slash (l : list ascii) :
  Str.has_slash l = false -> Path.until_slash l = l.
Proof.
  induction l as [|c l IH]; simpl; [reflexivity|]. intros H.
  apply orb_false_iff in H as [Hc Hl]. now rewrite Hc, IH.
Qed.

Lemma dir_prefix_cases (dir : string) :
  dir_prefix dir = "" \/ exists a, dir_prefix dir = a +:+ "/".
Proof.
  unfold dir_prefix. destruct (String.eqb dir "."); [now left|].
  destruct (String.eqb dir "/"); right; [now exists "" | now exists dir].
Qed.

(** The base name of an entry of a directory is the name of the entry. *)
Lemma Base_Join (dir n : string) : entry_name n -> Path.Base (Join dir n) = n.
Proof.
  intros [Hne Hslash]. unfold Path.Base, Join.
  assert (Hrev : exists c l, rev (Str.bytes n) = c :: l
                             /\ Str.is_slash c = false).
  { destruct (rev (Str.bytes n)) as [|c l] eqn:Hr.
    - apply (f_equal (@rev ascii)) in Hr. rewrite rev_involutive in Hr.
      now apply bytes_nil in Hr.
    - exists c, l. split; [reflexivity|].
      rewrite <- has_slash_rev, Hr in Hslash. simpl in Hslash.
      now apply orb_false_iff in Hslash. }
  destruct Hrev as (c & l & Hr & Hc).
  assert (Huntil : Path.until_slash
                     (Path.drop_slashes (rev (Str.bytes (dir_prefix dir +:+ n))))
                   = rev (Str.bytes n)).
  { rewrite bytes_app, rev_app_distr.
    assert (Hdrop : forall r, Path.drop_slashes (rev (Str.bytes n) ++ r)
                              = rev (Str.bytes n) ++ r).
    { intros r. rewrite Hr. simpl. now rewrite Hc. }
    rewrite Hdrop.
    destruct (dir_prefix_cases dir) as [-> | [a ->]].
    - simpl. rewrite app_nil_r. apply until_slash_no_slash.
      now rewrite has_slash_rev.
    - rewrite bytes_app, rev_app_distr. simpl.
      apply until_slash_app. now rewrite has_slash_rev. }
  destruct (Str.bytes (dir_prefix dir +:+ n)) as [|c0 l0] eqn:Hb.
  - rewrite bytes_app in Hb. apply app_eq_nil in Hb as [_ Hb].
    now apply bytes_nil in Hb.
  - rewrite Huntil, Hr, <- Hr, rev_involutive. apply of_bytes_bytes.
Qed.

Lemma plain_Join (dir n : string) : plain dir -> plain n -> plain (Join dir n).
Proof.
  unfold plain, Join. rewrite !hasMeta_is_meta, bytes_app, existsb_app.
  intros Hdir ->. rewrite orb_false_r.
  unfold dir_prefix. destruct (String.eqb dir "."); [reflexivity|].
  destruct (String.eqb dir "/"); [reflexivity|].
  rewrite bytes_app, existsb_app, Hdir. reflexivity.
Qed.

Lemma Join_nonempty (dir n : string) : n <> "" -> Join dir n <> "".
Proof.
  intros Hne E. unfold Join in E. apply (f_equal Str.bytes) in E.
  rewrite bytes_app in E. apply app_eq_nil in E as [_ E].
  now apply bytes_nil in E.
Qed.

Lemma len_map {A B} (f : A -> B) (l : list A) : len (map f l) = len l.
Proof. unfold len. f_equal. apply length_map. Qed.

(** The loop of [Categories] over entries that can be opened: one
    category for each directory that is not hidden. *)
Lemma list_categories_plain (w : World) (names : list string) :
  archivePath w <> "" -> plain (archivePath w) ->
  (forall n, n ∈ names ->
     entry_name n
     /\ exists ino, files w !! Join (archivePath w) n = Some ino
        /\ (is_hidden n = false ->
            openErr ino = None /\ statErr ino = None
            /\ (kind ino = Directory -> plain n))) ->
  forall (archiveCats : list ArchiveCategory) (s : Server),
    list_categories w (map (Join (archivePath w)) names) archiveCats s
    = (Done (archiveCats
             ++ map (category_of w) (List.filter (shown_directory w) names)), s).
Proof.
  intros Hne Hplain.
  induction names as [|n names IH]; intros Hnames acc s; simpl.
  - now rewrite app_nil_r.
  - destruct (Hnames n) as (Hn & ino & Hino & Hshown); [left|].
    assert (Hrest : forall n', n' ∈ names ->
              entry_name n'
              /\ exists ino', files w !! Join (archivePath w) n' = Some ino'
                 /\ (is_hidden n' = false ->
                     openErr ino' = None /\ statErr ino' = None
                     /\ (kind ino' = Directory -> plain n')))
      by (intros n' Hn'; apply Hnames; now right).
    specialize (IH Hrest).
    rewrite (Base_Join _ n Hn). unfold shown_directory at 1.
    change (Str.HasPrefix n ".") with (is_hidden n).
    destruct (is_hidden n) eqn:Hhid; [apply IH|].
    destruct (Hshown eq_refl) as (Hopen & Hstat & Hpl).
    unfold os_Open, Stat, is_directory. rewrite Hino, Hopen, Hstat.
    unfold IsDir. destruct (kind ino) eqn:Hkind; [apply IH|].
    rewrite Glob_pdfs_in;
      [|now apply Join_nonempty, Hn
       |apply plain_Join; [exact Hplain | now apply Hpl]].
    rewrite IH. simpl. rewrite <- app_assoc. simpl.
    assert (Hdir : openable_dir w (Join (archivePath w) n) = true).
    { unfold openable_dir. now rewrite Hino, Hkind, Hopen. }
    unfold category_of at 1. now rewrite pdf_paths_eq, Hdir, len_map.
Qed.

(** C9 as written fails twice.  On the sample archive the category [x*]
    has no entry at all, and is listed with the three [.pdf] entries of
    [xy], which its name matches as a pattern; and on the archive with a
    category that cannot be opened nothing is listed. *)
Lemma Categories_not_as_specified :
  fst (serve (Categories sample_world) initial)
    = Done [ {| CatName := "x*"; Elements := 3 |};
             {| CatName := "xy"; Elements := 3 |} ]
  /\ expected_categories sample_world
     = [ {| CatName := "x*"; Elements := 0 |};
         {| CatName := "xy"; Elements := 3 |} ]
  /\ fst (serve (Categories sample_world) initial)
     <> Done (expected_categories sample_world)
  /\ fst (serve (Categories locked_world) initial)
     <> Done (expected_categories locked_world).
Proof.
  split; [vm_compute; reflexivity|].
  split; [vm_compute; reflexivity|].
  split; vm_compute; discriminate.
Qed.

(** C9 (amended).  Let the archive root be a directory the server can
    open, given by a plain path, and let every entry of it that is not
    hidden open and stat, and have a plain name if it is a directory.
    Then [Categories] returns, and writes, exactly the entries of the
    root that are not hidden and are directories, in the order of their
    names, each with the number of its own entries whose name ends in
    [.pdf]. *)
Theorem Categories_lists_directories (w : World) (s : Server) :
  archivePath w <> "" -> plain (archivePath w) ->
  directory_at w (archivePath w) ->
  forallb (listable w) (Readdirnames w (archivePath w)) = true ->
  exists s',
    serve (Categories w) s = (Done (expected_categories w), s')
    /\ written s' = [Encoded (encode_ArchiveCategories (expected_categories w))]
    /\ docCache s' = docCache s
    /\ docThumbCache s' = docThumbCache s
    /\ pdf_io s' = pdf_io s.
Proof.
  intros Hne Hplain Hroot Hall.
  unfold serve, Categories.
  rewrite Glob_entries by assumption.
  apply openable_dir_true in Hroot. rewrite Hroot.
  unfold bind at 1. unfold log_Printf at 1. cbv beta iota.
  unfold bind at 1.
  rewrite list_categories_plain; [|assumption..|].
  - eexists. split; [reflexivity|]. repeat split.
  - intros n Hn. rewrite forallb_forall in Hall.
    specialize (Hall n (proj1 (list_elem_of_In _ _) Hn)).
    apply elem_of_Readdirnames in Hn as [Hname [ino Hino]].
    split; [exact Hname|]. exists ino. split; [exact Hino|].
    intros Hshown. unfold listable in Hall. rewrite Hshown, Hino in Hall.
    simpl in Hall. apply andb_true_iff in Hall as [Hall Hdir].
    apply andb_true_iff in Hall as [Hopen Hstat].
    unfold is_nil_ptr in *.
    destruct (openErr ino); [discriminate|].
    destruct (statErr ino); [discriminate|].
    repeat split. intros Hkind. unfold IsDir in Hdir. rewrite Hkind in Hdir.
    simpl in Hdir. unfold plain. now destruct (hasMeta n).
Qed.

Lemma Categories_lists_directories_witness :
  exists s',
    serve (Categories tidy_world) initial
      = (Done [ {| CatName := "xy"; Elements := 3 |} ], s')
    /\ pdf_io s' = [].
Proof.
  destruct (Categories_lists_directories tidy_world initial)
    as (s' & Hrun & _ & _ & _ & Hio).
  - discriminate.
  - reflexivity.
  - exists sample_dir. split; [vm_compute; reflexivity|]. split; reflexivity.
  - vm_compute. reflexivity.
  - exists s'. split; [|exact Hio].
    rewrite Hrun. f_equal.
Defined.

(** * Further properties of the code *)

(** ** Fingerprints *)

Lemma fnv64a_step_range (h : Z) (c : ascii) : 0 <= fnv64a_step h c < two64.
Proof. unfold fnv64a_step. apply Z.mod_pos_bound. reflexivity. Qed.

Lemma fnv64a_range (p : string) : 0 <= fnv64a p < two64.
Proof.
  unfold fnv64a.
  assert (H : forall l h, 0 <= h < two64 ->
                          0 <= fold_left fnv64a_step l h < two64).
  { induction l as [|c l IH]; intros h Hh; simpl; [exact Hh|].
    apply IH, fnv64a_step_range. }
  apply H. unfold offset64, two64. lia.
Qed.

(** A property of the document cache that holds of the empty cache and
    after the one store of [ProcessDocument] holds in every state the
    server reaches. *)
Lemma reachable_docCache `{Sorter} (W : World -> Prop)
    (P : gmap Z ArchiveDoc -> Prop) :
  P ∅ ->
  (forall w p c d, W w -> P c -> c !! fnv64a p = None -> extract w p = Ok d ->
                   P (<[fnv64a p := d]> c)) ->
  forall s, reachable W s -> P (docCache s).
Proof.
  intros Hempty Hstore s Hreach.
  induction Hreach as [|s w r o s' Hreach IH HW Hrun Hlive]; [exact Hempty|].
  assert (HP : on_caches (fun x => P (docCache x)))
    by (intros x x' Hd _; now rewrite Hd).
  assert (HPD : forall p, keeps (fun x => P (docCache x)) (ProcessDocument w p)).
  { intros p x o' x' Hpd Hx.
    destruct (ProcessDocument_cache w p x o' x' Hpd)
      as (_ & [-> | (d & Hc & Hex & ->)]); eauto. }
  destruct r as [| |docIdStr]; simpl in Hrun.
  - apply serve_bind_ret in Hrun as [o' Hrun].
    apply (keeps_serve _ HP (AllDocs w) s o' s');
      [now apply keeps_AllDocs | exact Hrun | exact IH].
  - apply serve_bind_ret in Hrun as [o' Hrun].
    apply (keeps_serve _ HP (Categories w) s o' s');
      [now apply keeps_Categories | exact Hrun | exact IH].
  - destruct (DocThumbnail_caches w docIdStr s o s' Hrun) as (-> & _).
    exact IH.
Qed.

(** X1.  In every state the server reaches, a record of the document
    cache stands under its own [Id], which is the FNV-1a fingerprint of
    its own path, an unsigned 64-bit number; its name is the base name
    of that path. *)
Theorem cached_records_are_fingerprinted `{Sorter}
    (W : World -> Prop) (s : Server) (id : Z) (d : ArchiveDoc) :
  reachable W s ->
  docCache s !! id = Some d ->
  Id d = id /\ id = fnv64a (FilePath d) /\ 0 <= id < two64
  /\ Name d = Path.Base (FilePath d).
Proof.
  intros Hreach.
  revert id d.
  apply (reachable_docCache W
           (fun c => forall id d, c !! id = Some d ->
              Id d = id /\ id = fnv64a (FilePath d) /\ 0 <= id < two64
              /\ Name d = Path.Base (FilePath d))); [| |exact Hreach].
  - intros id d. rewrite lookup_empty. discriminate.
  - intros w p c d0 _ Hc Hnone Hex id d.
    destruct (decide (fnv64a p = id)) as [<-|Hne].
    + rewrite lookup_insert_eq. intros [= <-].
      destruct (extract_Id w p d0 Hex) as [Hid Hpath].
      rewrite Hpath. repeat split; auto; try apply fnv64a_range.
      unfold extract in Hex. destruct (os_Open w p); [|discriminate].
      destruct (Stat a); [|discriminate]. destruct (pdf a0); [discriminate|].
      now injection Hex as <-.
    + rewrite lookup_insert_ne by exact Hne. apply Hc.
Qed.

Lemma cached_records_are_fingerprinted_witness :
  fnv64a "/r/xy/a.pdf" = 12606778972297040078
  /\ 0 <= 12606778972297040078 < two64.
Proof.
  destruct (@cached_records_are_fingerprinted insertion_sorter
              (fixed_world sample_world)
              (snd (serve (@handle insertion_sorter sample_world GetAllDocs) initial))
              12606778972297040078
              {| Id := 12606778972297040078; Name := "a.pdf"; Size := 10;
                 CreateDate := 7; FileDate := 7; Pages := 2; Content := "YQ==";
                 FilePath := "/r/xy/a.pdf" |})
    as (_ & Hfnv & Hrange & _).
  - exact sample_listed.
  - vm_compute. reflexivity.
  - split; [symmetry; exact Hfnv | exact Hrange].
Defined.

(** ** The caches only grow *)









(** ** Ids as text *)

Lemma digit_char (r : Z) :
  0 <= r < 10 ->
  is_digit (Str.chr (48 + r)) = true /\ digit_val (Str.chr (48 + r)) = r.
Proof.
  intros Hr.
  assert (Hcases : r = 0 \/ r = 1 \/ r = 2 \/ r = 3 \/ r = 4 \/ r = 5
                   \/ r = 6 \/ r = 7 \/ r = 8 \/ r = 9) by lia.
  repeat (destruct Hcases as [-> | Hcases]; [now vm_compute|]).
  subst r. now vm_compute.
Qed.

(** The digits [decimal_go] writes in front of [acc] parse to [n]. *)
Lemma decimal_go_parses (fuel : nat) :
  forall (n : Z) (acc : list ascii),
    0 <= n < 2 ^ Z.of_nat (S fuel) -> n < two64 ->
    exists ds,
      Str.decimal_go (S fuel) n acc = ds ++ acc
      /\ ds <> []
      /\ forall (rest : list ascii),
           parse_digits (ds ++ rest) 0 = parse_digits rest n.
Proof.
  induction fuel as [|fuel IH]; intros n acc Hn H64.
  - (* one bit: n is 0 or 1 *)
    change (2 ^ Z.of_nat 1) with 2 in Hn.
    exists [Str.chr (48 + n mod 10)]. cbn [Str.decimal_go].
    assert (Hlt : (n <? 10) = true) by (apply Z.ltb_lt; lia).
    rewrite Hlt. split; [reflexivity|]. split; [discriminate|].
    intros rest. rewrite Z.mod_small by lia.
    destruct (digit_char n) as [Hd Hv]; [lia|].
    cbn [app parse_digits]. rewrite Hd, Hv. simpl negb. cbv iota.
    assert (H1 : (two64 <=? 0 * 10) = false) by reflexivity.
    assert (H2 : (two64 <=? 0 * 10 + n) = false)
      by (apply Z.leb_gt; unfold two64; lia).
    now rewrite H1, H2.
  - remember (S fuel) as f eqn:Hf. cbn [Str.decimal_go].
    destruct (n <? 10) eqn:Hlt.
    + apply Z.ltb_lt in Hlt.
      exists [Str.chr (48 + n mod 10)]. split; [reflexivity|].
      split; [discriminate|]. intros rest. rewrite Z.mod_small by lia.
      destruct (digit_char n) as [Hd Hv]; [lia|].
      cbn [app parse_digits]. rewrite Hd, Hv. simpl negb. cbv iota.
      assert (H1 : (two64 <=? 0 * 10) = false) by reflexivity.
      assert (H2 : (two64 <=? 0 * 10 + n) = false)
        by (apply Z.leb_gt; unfold two64; lia).
      now rewrite H1, H2.
    + apply Z.ltb_ge in Hlt.
      assert (Hdiv : 0 <= n / 10 < 2 ^ Z.of_nat f).
      { split; [apply Z.div_pos; lia|].
        apply Z.div_lt_upper_bound; [lia|].
        rewrite Nat2Z.inj_succ, Z.pow_succ_r in Hn by lia. lia. }
      assert (Hmod : 0 <= n mod 10 < 10) by (apply Z.mod_pos_bound; lia).
      assert (Hsplit : n = 10 * (n / 10) + n mod 10)
        by (apply Z.div_mod; lia).
      subst f.
      destruct (IH (n / 10) (Str.chr (48 + n mod 10) :: acc))
        as (ds & Hds & Hne & Hparse); [exact Hdiv | lia |].
      exists (ds ++ [Str.chr (48 + n mod 10)]).
      split; [rewrite Hds, <- app_assoc; reflexivity|].
      split; [destruct ds; discriminate|].
      intros rest. rewrite <- app_assoc. cbn [app]. rewrite Hparse.
      destruct (digit_char (n mod 10)) as [Hd Hv]; [lia|].
      cbn [parse_digits]. rewrite Hd, Hv. simpl negb. cbv iota.
      assert (H1 : (two64 <=? n / 10 * 10) = false)
        by (apply Z.leb_gt; lia).
      assert (H2 : (two64 <=? n / 10 * 10 + n mod 10) = false)
        by (apply Z.leb_gt; lia).
      rewrite H1, H2. f_equal. lia.
Qed.

(** [ParseUint] reads the decimal text of an unsigned 64-bit number back
    as that number. *)
Lemma ParseUint_decimal (n : Z) :
  0 <= n < two64 -> ParseUint (Str.decimal n) = (n, None).
Proof.
  intros Hn. unfold ParseUint, Str.decimal.
  destruct (decimal_go_parses (Z.to_nat (Z.log2 n)) n [])
    as (ds & Hds & Hne & Hparse).
  - split; [lia|].
    destruct (Z.eq_dec n 0) as [->|Hpos]; [reflexivity|].
    rewrite Nat2Z.inj_succ, Z2Nat.id by apply Z.log2_nonneg.
    apply Z.log2_spec. lia.
  - lia.
  - rewrite Hds, app_nil_r, bytes_of_bytes.
    specialize (Hparse []). rewrite app_nil_r in Hparse.
    destruct ds; [congruence | exact Hparse].
Qed.

(** X4.  An id written in decimal, as the handlers print it, is read
    back by the thumbnail route as the same id, without a complaint: for
    every unsigned 64-bit [n], the text of [n] requests the id [n]. *)
Theorem decimal_id_is_requested (n : Z) :
  0 <= n < two64 ->
  requested (Str.decimal n) = n /\ complaint (Str.decimal n) = [].
Proof.
  intros Hn. unfold requested, complaint.
  rewrite (ParseUint_decimal n Hn). split; reflexivity.
Qed.

Lemma decimal_id_is_requested_witness :
  requested (Str.decimal (two64 - 1)) = two64 - 1
  /\ complaint (Str.decimal (two64 - 1)) = [].
Proof. apply decimal_id_is_requested. unfold two64. lia. Defined.

(** ** Listing, and listing again *)

Lemma parse_docs_cache (w : World) (archiveFiles : list string) :
  forall (archiveDocs : list ArchiveDoc) (s : Server),
  exists s',
    parse_docs w archiveFiles archiveDocs s
      = (Done (archiveDocs ++ scan_docs w (docCache s) archiveFiles), s')
    /\ docCache s' = scan_cache w (docCache s) archiveFiles
    /\ docThumbCache s' = docThumbCache s
    /\ written s' = written s.
Proof.
  induction archiveFiles as [|file rest IH]; intros acc s; simpl.
  - exists s. now rewrite app_nil_r.
  - unfold bind. destruct (docCache s !! fnv64a file) as [d|] eqn:Hc.
    + rewrite (ProcessDocument_hit w file s d Hc).
      destruct (IH (acc ++ [d]) s) as (s' & Hrun & Hd & Ht & Hw).
      exists s'. rewrite Hrun, <- app_assoc. auto.
    + destruct (ProcessDocument_miss w file s Hc)
        as (s1 & Hrun1 & Hcache & Ht1 & _ & Hw1 & _).
      rewrite Hrun1. destruct (extract w file) as [d|e].
      * destruct (IH (acc ++ [d]) s1) as (s' & Hrun & Hd & Ht & Hw).
        exists s'. rewrite Hrun, Hcache, <- app_assoc.
        repeat split; congruence.
      * unfold log_Printf at 1.
        destruct (IH acc
                    {| docCache := docCache s1; docThumbCache := docThumbCache s1;
                       logged := logged s1
                                 ++ ["Error parsing document " +:+ file +:+ ": " +:+ e];
                       pdf_io := pdf_io s1; written := written s1 |})
          as (s' & Hrun & Hd & Ht & Hw).
        exists s'. rewrite Hrun. simpl in *. rewrite Hcache.
        repeat split; congruence.
Qed.

(** A listing that returns: the paths it scanned, what it returns and
    what it leaves in the caches. *)
Lemma AllDocs_done `{Sorter} (w : World) (s : Server)
    (sorted : list ArchiveDoc) (s1 : Server) :
  serve (AllDocs w) s = (Done sorted, s1) ->
  exists archiveFiles,
    Filepath.Glob w (archivePath w +:+ "/*/*.pdf") = (archiveFiles, None)
    /\ sorted = sort_Sort Less (scan_docs w (docCache s) archiveFiles)
    /\ docCache s1 = scan_cache w (docCache s) archiveFiles
    /\ docThumbCache s1 = docThumbCache s
    /\ written s1 = [Encoded (encode_ArchiveDocs sorted)].
Proof.
  unfold serve, AllDocs.
  destruct (Glob w _) as [archiveFiles [e|]]; [discriminate|].
  unfold bind at 1. unfold log_Printf at 1.
  unfold bind at 1. unfold log_Printf at 1.
  unfold bind at 1. cbn [docCache docThumbCache logged pdf_io written].
  match goal with
  | |- context [parse_docs w archiveFiles [] ?s0] =>
      destruct (parse_docs_cache w archiveFiles [] s0)
        as (s' & Hrun & Hd & Ht & Hw)
  end.
  rewrite Hrun. cbn [docCache docThumbCache logged pdf_io written] in *.
  simpl app. unfold bind, log_Printf, respond, ret. simpl.
  intros [= <- <-]. exists archiveFiles. simpl. rewrite Hw.
  repeat split; assumption.
Qed.

Lemma scan_cache_grows (w : World) (archiveFiles : list string) :
  forall cache, cache ⊆ scan_cache w cache archiveFiles.
Proof.
  induction archiveFiles as [|file rest IH]; intros cache; simpl.
  - reflexivity.
  - destruct (cache !! fnv64a file) eqn:Hc; [apply IH|].
    destruct (extract w file); [|apply IH].
    etransitivity; [|apply IH]. now apply insert_subseteq.
Qed.

Lemma scan_cache_other (w : World) (id : Z) (archiveFiles : list string) :
  id ∉ map fnv64a archiveFiles ->
  forall cache, scan_cache w cache archiveFiles !! id = cache !! id.
Proof.
  induction archiveFiles as [|file rest IH]; intros Hid cache; simpl.
  - reflexivity.
  - simpl in Hid. apply not_elem_of_cons in Hid as [Hne Hid].
    destruct (cache !! fnv64a file) eqn:Hc; [now apply IH|].
    destruct (extract w file); [|now apply IH].
    rewrite IH by exact Hid. now apply lookup_insert_ne.
Qed.



(** With distinct fingerprints, a second scan finds what the first one
    returned and adds nothing. *)
Lemma scan_again (w : World) (archiveFiles : list string) :
  NoDup (map fnv64a archiveFiles) ->
  forall cache,
    scan_docs w (scan_cache w cache archiveFiles) archiveFiles
      = scan_docs w cache archiveFiles
    /\ scan_cache w (scan_cache w cache archiveFiles) archiveFiles
      = scan_cache w cache archiveFiles.
Proof.
  induction archiveFiles as [|file rest IH]; intros Hnodup cache; simpl.
  - auto.
  - simpl in Hnodup. apply NoDup_cons in Hnodup as [Hfresh Hnodup].
    specialize (IH Hnodup).
    destruct (cache !! fnv64a file) as [d|] eqn:Hc.
    + assert (Hhit : scan_cache w cache rest !! fnv64a file = Some d)
        by (eapply lookup_weaken; [exact Hc | apply scan_cache_grows]).
      rewrite Hhit. destruct (IH cache) as [-> ->]. auto.
    + destruct (extract w file) as [d|e] eqn:Hex.
      * assert (Hhit : scan_cache w (<[fnv64a file := d]> cache) rest
                         !! fnv64a file = Some d).
        { eapply lookup_weaken; [apply lookup_insert_eq | apply scan_cache_grows]. }
        rewrite Hhit. destruct (IH (<[fnv64a file := d]> cache)) as [-> ->]. auto.
      * assert (Hmiss : scan_cache w cache rest !! fnv64a file = None)
          by now rewrite scan_cache_other.
        rewrite Hmiss. apply IH.
Qed.

(** X5.  Listing twice.  When the paths of the archive have distinct
    fingerprints, a second [AllDocs], the files being the same, returns
    and writes the listing the first one returned, and leaves the
    document cache as the first one left it. *)
Theorem AllDocs_twice `{Sorter}
    (w : World) (s : Server) (archiveFiles : list string) :
  Filepath.Glob w (archivePath w +:+ "/*/*.pdf") = (archiveFiles, None) ->
  NoDup (map fnv64a archiveFiles) ->
  exists sorted s1 s2,
    serve (AllDocs w) s = (Done sorted, s1)
    /\ serve (AllDocs w) s1 = (Done sorted, s2)
    /\ written s2 = written s1
    /\ docCache s2 = docCache s1
    /\ docThumbCache s2 = docThumbCache s.
Proof.
  intros Hglob Hnodup.
  destruct (AllDocs_run w s archiveFiles Hglob) as (s1 & Hrun1 & Hw1 & Ht1).
  destruct (AllDocs_run w s1 archiveFiles Hglob) as (s2 & Hrun2 & Hw2 & Ht2).
  destruct (AllDocs_done w s _ s1 Hrun1)
    as (files1 & Hglob1 & _ & Hd1 & _).
  destruct (AllDocs_done w s1 _ s2 Hrun2)
    as (files2 & Hglob2 & _ & Hd2 & _).
  rewrite Hglob in Hglob1, Hglob2.
  injection Hglob1 as <-. injection Hglob2 as <-.
  destruct (scan_again w archiveFiles Hnodup (docCache s)) as [Hdocs Hcache].
  rewrite Hd1 in Hrun2, Hw2, Hd2. rewrite Hdocs in Hrun2, Hw2.
  rewrite Hcache in Hd2.
  eexists _, s1, s2. split; [exact Hrun1|]. split; [exact Hrun2|].
  repeat split; congruence.
Qed.

Lemma AllDocs_twice_witness :
  exists sorted s1 s2,
    serve (@AllDocs insertion_sorter sample_world) initial = (Done sorted, s1)
    /\ serve (@AllDocs insertion_sorter sample_world) s1 = (Done sorted, s2)
    /\ docCache s2 = docCache s1.
Proof.
  destruct (@AllDocs_twice insertion_sorter sample_world initial
              ["/r/.h/q.pdf"; "/r/xy/2021_03_04_10_15_30_report.pdf";
               "/r/xy/a.pdf"; "/r/xy/bad.pdf"])
    as (sorted & s1 & s2 & H1 & H2 & _ & Hd & _).
  - vm_compute. reflexivity.
  - apply (bool_decide_unpack _). vm_compute. exact I.
  - exists sorted, s1, s2. auto.
Defined.

(** ** From the listing to the thumbnail *)




(** ** An id that is not a number *)

Lemma parse_digits_error (l : list ascii) :
  forall (n : Z) (e : NumError),
    snd (parse_digits l n) = Some e ->
    fst (parse_digits l n)
    = match e with ErrSyntax => 0 | ErrRange => maxUint64 end.
Proof.
  induction l as [|c l IH]; intros n e; simpl; [discriminate|].
  destruct (negb (is_digit c)); [now intros [= <-]|].
  destruct (two64 <=? n * 10); [now intros [= <-]|].
  destruct (two64 <=? n * 10 + digit_val c); [now intros [= <-]|].
  apply IH.
Qed.

Lemma ParseUint_error (docIdStr : string) (e : NumError) :
  snd (ParseUint docIdStr) = Some e ->
  requested docIdStr
  = match e with ErrSyntax => 0 | ErrRange => maxUint64 end.
Proof.
  unfold requested, ParseUint.
  destruct (Str.bytes docIdStr) as [|c l]; [now intros [= <-]|].
  apply parse_digits_error.
Qed.

(** Two texts that ask for the same id are answered alike, each after
    its own complaint. *)
Lemma DocThumbnail_by_id (w : World) (a b : string) (s : Server) :
  requested a = requested b ->
  exists o sa sb body,
    serve (DocThumbnail w a) s = (o, sa)
    /\ serve (DocThumbnail w b) s = (o, sb)
    /\ written sa = complaint a ++ body
    /\ written sb = complaint b ++ body
    /\ docCache sa = docCache sb
    /\ docThumbCache sa = docThumbCache sb
    /\ pdf_io sa = pdf_io sb.
Proof.
  intros Hid.
  destruct (docThumbCache s !! requested a) as [t|] eqn:Ht.
  { destruct (DocThumbnail_cached w a s t Ht) as (sa & Ha & Hwa & Hia & Hda & Hta).
    rewrite Hid in Ht.
    destruct (DocThumbnail_cached w b s t Ht) as (sb & Hb & Hwb & Hib & Hdb & Htb).
    exists (Done tt), sa, sb, [Raw (Encoding t)]. repeat split; congruence. }
  destruct (docCache s !! requested a) as [d|] eqn:Hd.
  2:{ destruct (DocThumbnail_unknown w a s Ht Hd) as (sa & Ha & Hwa & Hia & Hda & Hta).
      rewrite Hid in Ht, Hd.
      destruct (DocThumbnail_unknown w b s Ht Hd) as (sb & Hb & Hwb & Hib & Hdb & Htb).
      exists (Panic nil_dereference), sa, sb,
        [Raw (unknown_document (requested b))].
      rewrite Hid in Hwa. repeat split; congruence. }
  destruct (files w !! FilePath d) as [ino|] eqn:Hfile.
  - destruct (pdf ino) as [e|pdfDoc] eqn:Hpdf.
    + assert (Hfail : forall ino', files w !! FilePath d = Some ino' ->
                                   exists e', pdf ino' = inl e').
      { intros ino' Hino'. rewrite Hfile in Hino'. injection Hino' as <-. eauto. }
      destruct (DocThumbnail_open_fails w a s d Ht Hd Hfail)
        as (sa & Ha & Hwa & Hia & Hda & Hta).
      rewrite Hid in Ht, Hd.
      destruct (DocThumbnail_open_fails w b s d Ht Hd Hfail)
        as (sb & Hb & Hwb & Hib & Hdb & Htb).
      exists (Panic nil_dereference), sa, sb, [].
      rewrite !app_nil_r. repeat split; congruence.
    + destruct (DocThumbnail_render w a s d ino pdfDoc Ht Hd Hfile Hpdf)
        as (sa & Ha & Hwa & Hia & Hda & Hta).
      rewrite Hid in Ht, Hd.
      destruct (DocThumbnail_render w b s d ino pdfDoc Ht Hd Hfile Hpdf)
        as (sb & Hb & Hwb & Hib & Hdb & Htb).
      exists (Done tt), sa, sb, [Raw (jpeg_Encode w (FirstPageRaster pdfDoc))].
      rewrite Hid in Hta. repeat split; congruence.
  - assert (Hfail : forall ino', files w !! FilePath d = Some ino' ->
                                 exists e', pdf ino' = inl e').
    { intros ino' Hino'. rewrite Hfile in Hino'. discriminate. }
    destruct (DocThumbnail_open_fails w a s d Ht Hd Hfail)
      as (sa & Ha & Hwa & Hia & Hda & Hta).
    rewrite Hid in Ht, Hd.
    destruct (DocThumbnail_open_fails w b s d Ht Hd Hfail)
      as (sb & Hb & Hwb & Hib & Hdb & Htb).
    exists (Panic nil_dereference), sa, sb, [].
    rewrite !app_nil_r. repeat split; congruence.
Qed.

(** X7.  A thumbnail request whose id is not an unsigned 64-bit number
    is not turned away: after the line "Invalid docid" the handler goes
    on with the id [ParseUint] returned beside the error, 0 for a text
    that is not a number and 18446744073709551615 for one that is too
    large, and ends, writes and stores as the request for that id does. *)
Theorem DocThumbnail_invalid_id_goes_on
    (w : World) (docIdStr : string) (s : Server) (e : NumError) :
  snd (ParseUint docIdStr) = Some e ->
  let id := match e with ErrSyntax => 0 | ErrRange => maxUint64 end in
  exists o s' s0,
    serve (DocThumbnail w docIdStr) s = (o, s')
    /\ serve (DocThumbnail w (Str.decimal id)) s = (o, s0)
    /\ written s' = Raw (invalid_docid docIdStr) :: written s0
    /\ docCache s' = docCache s0
    /\ docThumbCache s' = docThumbCache s0
    /\ pdf_io s' = pdf_io s0.
Proof.
  intros Herr id.
  assert (Hrange : 0 <= id < two64)
    by (subst id; destruct e; unfold maxUint64, two64; lia).
  assert (Hreq : requested docIdStr = requested (Str.decimal id)).
  { rewrite (ParseUint_error docIdStr e Herr).
    unfold requested. now rewrite ParseUint_decimal. }
  destruct (DocThumbnail_by_id w docIdStr (Str.decimal id) s Hreq)
    as (o & sa & sb & body & Ha & Hb & Hwa & Hwb & Hd & Ht & Hio).
  exists o, sa, sb. split; [exact Ha|]. split; [exact Hb|].
  assert (Hca : complaint docIdStr = [Raw (invalid_docid docIdStr)])
    by (unfold complaint; now rewrite Herr).
  assert (Hcb : complaint (Str.decimal id) = [])
    by (unfold complaint; now rewrite ParseUint_decimal).
  rewrite Hwa, Hwb, Hca, Hcb. auto.
Qed.

Lemma DocThumbnail_invalid_id_goes_on_witness :
  exists o s' s0,
    serve (DocThumbnail sample_world "abc") initial = (o, s')
    /\ serve (DocThumbnail sample_world "0") initial = (o, s0)
    /\ written s' = Raw "Invalid docid: abc" :: written s0.
Proof.
  destruct (DocThumbnail_invalid_id_goes_on sample_world "abc" initial ErrSyntax)
    as (o & s' & s0 & Ha & Hb & Hw & _); [reflexivity|].
  exists o, s', s0. auto.
Defined.

(** ** What the listings never do *)

Lemma list_categories_effect (w : World) (archiveCategories : list string) :
  forall (archiveCats : list ArchiveCategory) (s : Server)
         (o : Outcome (list ArchiveCategory)) (s' : Server),
    list_categories w archiveCategories archiveCats s = (o, s') ->
    docCache s' = docCache s /\ docThumbCache s' = docThumbCache s
    /\ pdf_io s' = pdf_io s /\ written s' = written s
    /\ (o = Exit 1 \/ exists out, o = Done out /\ s' = s).
Proof.
  induction archiveCategories as [|category rest IH];
    intros acc s o s'; simpl.
  - intros [= <- <-]. repeat split; eauto.
  - assert (Hfatal : forall line,
              @log_Fatal (list ArchiveCategory) line s = (o, s') ->
              docCache s' = docCache s /\ docThumbCache s' = docThumbCache s
              /\ pdf_io s' = pdf_io s /\ written s' = written s
              /\ (o = Exit 1 \/ exists out, o = Done out /\ s' = s)).
    { intros line [= <- <-]. repeat split; auto. }
    destruct (Str.HasPrefix _ _); [apply IH|].
    destruct (os_Open w category) as [f|e]; [|apply Hfatal].
    destruct (Stat f) as [fi|e]; [|apply Hfatal].
    destruct (IsDir fi); [|apply IH].
    destruct (Glob w _) as [fileinCat [e|]]; [apply Hfatal | apply IH].
Qed.

Lemma Categories_effect (w : World) (s : Server)
    (o : Outcome (list ArchiveCategory)) (s' : Server) :
  serve (Categories w) s = (o, s') ->
  docCache s' = docCache s /\ docThumbCache s' = docThumbCache s
  /\ pdf_io s' = pdf_io s
  /\ (o = Exit 1 \/ exists archiveCats, o = Done archiveCats).
Proof.
  unfold serve, Categories.
  destruct (Glob w _) as [cats [e|]]; [intros [= <- <-]; simpl; auto|].
  unfold bind at 1. unfold log_Printf at 1. cbv beta iota.
  unfold bind at 1.
  destruct (list_categories w cats [] _) as [o1 s1] eqn:Hloop.
  apply list_categories_effect in Hloop
    as (Hd & Ht & Hio & Hw & [-> | (out & -> & ->)]); simpl in *.
  - intros [= <- <-]. repeat split; auto.
  - unfold bind, respond, ret. intros [= <- <-]. simpl. repeat split; eauto.
Qed.

(** X8.  [Categories] only reads: however the files are and however it
    ends, it leaves both caches as they are and calls no function of the
    PDF library; and it never panics, it returns a listing or ends the
    process with status 1. *)
Theorem Categories_only_reads (w : World) (s : Server) :
  let run := serve (Categories w) s in
  docCache (snd run) = docCache s
  /\ docThumbCache (snd run) = docThumbCache s
  /\ pdf_io (snd run) = pdf_io s
  /\ (fst run = Exit 1 \/ exists archiveCats, fst run = Done archiveCats).
Proof.
  intros run. subst run.
  destruct (serve (Categories w) s) as [o s'] eqn:Hrun.
  exact (Categories_effect w s o s' Hrun).
Qed.

(** X9.  [AllDocs] never panics and never touches the thumbnails: it
    returns a listing and writes it, or, exactly when the pattern of the
    archive is malformed, it ends the process with status 1, nothing
    written and both caches as they were. *)
Theorem AllDocs_returns_or_exits `{Sorter} (w : World) (s : Server) :
  let run := serve (AllDocs w) s in
  docThumbCache (snd run) = docThumbCache s
  /\ ((exists sorted,
         fst run = Done sorted
         /\ snd (Filepath.Glob w (archivePath w +:+ "/*/*.pdf")) = None
         /\ written (snd run) = [Encoded (encode_ArchiveDocs sorted)])
      \/ (fst run = Exit 1
          /\ snd (Filepath.Glob w (archivePath w +:+ "/*/*.pdf"))
             = Some ErrBadPattern
          /\ written (snd run) = []
          /\ docCache (snd run) = docCache s)).
Proof.
  destruct (Glob w (archivePath w +:+ "/*/*.pdf")) as [archiveFiles [e|]] eqn:Hglob.
  - unfold serve, AllDocs. rewrite Hglob. simpl. split; [reflexivity|].
    right. destruct e. auto.
  - destruct (AllDocs_run w s archiveFiles Hglob) as (s' & Hrun & Hw & Ht).
    simpl. rewrite Hrun. simpl. split; [exact Ht|]. left. eauto.
Qed.

(** ** A record outlives its file *)



(** ** The order of the listing *)

(** X11.  [Less] compares the logical dates only, the later date first,
    and is the strict weak order [sort.Sort] asks for: no record is less
    than itself, two records are never less than each other, it is
    transitive, and records that are not ordered either way with a
    third are not ordered with each other's. *)
Theorem Less_is_strict_weak_order :
  (forall a b, Less a b = true <-> FileDate b < FileDate a)
  /\ (forall a, Less a a = false)
  /\ (forall a b, Less a b = true -> Less b a = false)
  /\ (forall a b c, Less a b = true -> Less b c = true -> Less a c = true)
  /\ (forall a b c,
        Less a b = false -> Less b a = false ->
        Less b c = false -> Less c b = false ->
        Less a c = false /\ Less c a = false).
Proof.
  unfold Less, Time.After. repeat split; intros; lia.
Qed.

Lemma swap_lookups (l : list ArchiveDoc) (i j : nat) (a b : ArchiveDoc) :
  l !! i = Some a -> l !! j = Some b ->
  <[j := a]> (<[i := b]> l) !! i = Some b
  /\ <[j := a]> (<[i := b]> l) !! j = Some a
  /\ (forall k, k <> i -> k <> j ->
                <[j := a]> (<[i := b]> l) !! k = l !! k).
Proof.
  intros Hi Hj.
  assert (Hli : (i < length l)%nat) by (eapply lookup_lt_Some; eauto).
  assert (Hlj : (j < length l)%nat) by (eapply lookup_lt_Some; eauto).
  repeat split.
  - destruct (decide (j = i)) as [->|Hne].
    + rewrite list_lookup_insert_eq by now rewrite length_insert. congruence.
    + rewrite list_lookup_insert_ne by exact Hne.
      now apply list_lookup_insert_eq.
  - apply list_lookup_insert_eq. now rewrite length_insert.
  - intros k Hki Hkj. now rewrite !list_lookup_insert_ne by congruence.
Qed.

Lemma swap_back (l : list ArchiveDoc) (i j : nat) (a b : ArchiveDoc) :
  l !! i = Some a -> l !! j = Some b ->
  <[j := b]> (<[i := a]> (<[j := a]> (<[i := b]> l))) = l.
Proof.
  intros Hi Hj.
  destruct (swap_lookups l i j a b Hi Hj) as (Hi' & Hj' & Hother).
  apply list_eq. intros k.
  destruct (decide (k = j)) as [->|Hkj].
  - rewrite list_lookup_insert_eq; [congruence|].
    rewrite !length_insert. eapply lookup_lt_Some; eauto.
  - rewrite list_lookup_insert_ne by congruence.
    destruct (decide (k = i)) as [->|Hki].
    + rewrite list_lookup_insert_eq; [congruence|].
      rewrite !length_insert. eapply lookup_lt_Some; eauto.
    + rewrite list_lookup_insert_ne by congruence. now apply Hother.
Qed.

Lemma index_Some (slice : list ArchiveDoc) (i : Z) (a : ArchiveDoc) :
  ArchiveDocs.index slice i = Some a <->
  0 <= i < ArchiveDocs.Len slice /\ slice !! Z.to_nat i = Some a.
Proof.
  unfold ArchiveDocs.index, ArchiveDocs.Len.
  destruct (i <? 0) eqn:Hneg.
  - apply Z.ltb_lt in Hneg. split; [discriminate | lia].
  - apply Z.ltb_ge in Hneg. split.
    + intros Hl. split; [|exact Hl]. apply lookup_lt_Some in Hl. lia.
    + now intros [_ Hl].
Qed.

(** X12.  [Swap] exchanges two records of the slice and nothing else.
    With both indices inside the slice it gives a slice of the same
    length, a permutation of the first, with the records at [i] and [j]
    exchanged and every other place as it was, and a second [Swap] gives
    the first slice back; with an index outside it panics. *)
Theorem Swap_exchanges (slice : list ArchiveDoc) (i j : Z) :
  (0 <= i < ArchiveDocs.Len slice /\ 0 <= j < ArchiveDocs.Len slice ->
   exists swapped,
     ArchiveDocs.Swap slice i j = Some swapped
     /\ ArchiveDocs.Len swapped = ArchiveDocs.Len slice
     /\ Permutation swapped slice
     /\ ArchiveDocs.index swapped i = ArchiveDocs.index slice j
     /\ ArchiveDocs.index swapped j = ArchiveDocs.index slice i
     /\ (forall k, k <> i -> k <> j ->
           ArchiveDocs.index swapped k = ArchiveDocs.index slice k)
     /\ ArchiveDocs.Swap swapped i j = Some slice)
  /\ (~ (0 <= i < ArchiveDocs.Len slice /\ 0 <= j < ArchiveDocs.Len slice) ->
      ArchiveDocs.Swap slice i j = None).
Proof.
  split.
  - intros [Hi Hj].
    destruct (slice !! Z.to_nat i) as [a|] eqn:Ha.
    2:{ apply lookup_ge_None in Ha. unfold ArchiveDocs.Len in Hi. lia. }
    destruct (slice !! Z.to_nat j) as [b|] eqn:Hb.
    2:{ apply lookup_ge_None in Hb. unfold ArchiveDocs.Len in Hj. lia. }
    assert (Hia : ArchiveDocs.index slice i = Some a) by now apply index_Some.
    assert (Hjb : ArchiveDocs.index slice j = Some b) by now apply index_Some.
    destruct (swap_lookups slice _ _ a b Ha Hb) as (Hi' & Hj' & Hother).
    set (swapped := <[Z.to_nat j := a]> (<[Z.to_nat i := b]> slice)) in *.
    assert (Hlen : ArchiveDocs.Len swapped = ArchiveDocs.Len slice).
    { unfold ArchiveDocs.Len, swapped. now rewrite !length_insert. }
    assert (Hib : ArchiveDocs.index swapped i = Some b)
      by (apply index_Some; rewrite Hlen; auto).
    assert (Hja : ArchiveDocs.index swapped j = Some a)
      by (apply index_Some; rewrite Hlen; auto).
    exists swapped. unfold ArchiveDocs.Swap at 1. rewrite Hia, Hjb.
    split; [reflexivity|]. split; [exact Hlen|].
    split; [now apply Permutation_insert_swap|].
    split; [congruence|]. split; [congruence|]. split.
    + intros k Hki Hkj. unfold ArchiveDocs.index.
      destruct (k <? 0) eqn:Hk; [reflexivity|]. apply Z.ltb_ge in Hk.
      apply Hother; lia.
    + unfold ArchiveDocs.Swap. rewrite Hib, Hja. f_equal.
      now apply swap_back.
  - intros Hout. unfold ArchiveDocs.Swap.
    destruct (ArchiveDocs.index slice j) as [b|] eqn:Hb; [|reflexivity].
    destruct (ArchiveDocs.index slice i) as [a|] eqn:Ha; [|reflexivity].
    apply index_Some in Ha as [Hi _]. apply index_Some in Hb as [Hj _].
    tauto.
Qed.

Lemma Swap_exchanges_witness :
  let a := {| Id := 1; Name := "a"; Size := 0; CreateDate := 1; FileDate := 1;
              Pages := 1; Content := ""; FilePath := "/a" |} in
  let b := {| Id := 2; Name := "b"; Size := 0; CreateDate := 2; FileDate := 2;
              Pages := 1; Content := ""; FilePath := "/b" |} in
  ArchiveDocs.Swap [a; b; a] 0 1 = Some [b; a; a]
  /\ ArchiveDocs.Swap [a; b; a] 0 3 = None.
Proof.
  intros a b.
  destruct (Swap_exchanges [a; b; a] 0 1) as [Hin _].
  destruct (Swap_exchanges [a; b; a] 0 3) as [_ Hout].
  split.
  - destruct Hin as (swapped & Hswap & _); [unfold ArchiveDocs.Len; simpl; lia|].
    rewrite Hswap. vm_compute in Hswap. now injection Hswap as <-.
  - apply Hout. unfold ArchiveDocs.Len. simpl. lia.
Defined.

(** ** The text of the first page *)

Lemma sextet_in_alphabet (n : Z) : In (Base64.sextet n) Base64.alphabet.
Proof.
  unfold Base64.sextet. apply nth_In.
  change (length Base64.alphabet) with 64%nat.
  change 63 with (Z.ones 6). rewrite Z.land_ones by lia.
  change (2 ^ 6) with 64.
  assert (H : 0 <= n mod 64 < 64) by (apply Z.mod_pos_bound; lia).
  lia.
Qed.

Lemma encode_shape (fuel : nat) :
  forall l : list ascii,
    (length l < fuel)%nat ->
    Forall base64_char (Base64.encode fuel l)
    /\ length (Base64.encode fuel l) = (4 * ((length l + 2) / 3))%nat.
Proof.
  assert (Hs : forall n, base64_char (Base64.sextet n))
    by (intros n; left; apply sextet_in_alphabet).
  assert (Hp : base64_char Base64.pad) by now right.
  induction fuel as [|fuel IH]; intros l Hl; [lia|].
  destruct l as [|a [|b [|c l]]]; cbn [Base64.encode].
  - split; [constructor | reflexivity].
  - split; [repeat (constructor; [solve [auto]|]); constructor | reflexivity].
  - split; [repeat (constructor; [solve [auto]|]); constructor | reflexivity].
  - destruct (IH l) as [Hall Hlen]; [simpl in Hl; lia|].
    split; [repeat (constructor; [solve [auto]|]); exact Hall|].
    cbn [length]. rewrite Hlen.
    replace (S (S (S (length l))) + 2)%nat with (length l + 2 + 1 * 3)%nat by lia.
    rewrite Nat.div_add by lia. lia.
Qed.

(** X13.  The content of a record is safe to carry in JSON: the base-64
    text of the first page has only characters of the base-64 alphabet
    and the padding [=], and four of them for every three bytes of the
    text, the last group filled up. *)
Theorem EncodeToString_shape (text : string) :
  Forall base64_char (Str.bytes (Base64.EncodeToString text))
  /\ length (Str.bytes (Base64.EncodeToString text))
     = (4 * ((length (Str.bytes text) + 2) / 3))%nat.
Proof.
  unfold Base64.EncodeToString. rewrite bytes_of_bytes.
  apply encode_shape. lia.
Qed.

(** ** Cached paths cost nothing, failures are tried again *)

Lemma parse_docs_hits (w : World) (archiveFiles : list string) (s : Server) :
  Forall (fun f => is_Some (docCache s !! fnv64a f)) archiveFiles ->
  forall archiveDocs,
    parse_docs w archiveFiles archiveDocs s
    = (Done (archiveDocs ++ scan_docs w (docCache s) archiveFiles), s)
    /\ length (scan_docs w (docCache s) archiveFiles) = length archiveFiles.
Proof.
  induction 1 as [|file rest [d Hd] Hrest IH]; intros acc; simpl.
  - now rewrite app_nil_r.
  - unfold bind. rewrite (ProcessDocument_hit w file s d Hd), Hd.
    destruct (IH (acc ++ [d])) as [Hrun Hlen].
    rewrite Hrun, <- app_assoc. simpl. auto.
Qed.

(** X14.  A listing whose paths all have a record in the cache costs no
    extraction: [AllDocs] returns one record for each path, calls no
    function of the PDF library and leaves both caches as they are,
    whatever has become of the files themselves. *)
Theorem AllDocs_of_cached_paths `{Sorter}
    (w : World) (s : Server) (archiveFiles : list string) :
  Filepath.Glob w (archivePath w +:+ "/*/*.pdf") = (archiveFiles, None) ->
  Forall (fun f => is_Some (docCache s !! fnv64a f)) archiveFiles ->
  exists sorted s',
    serve (AllDocs w) s = (Done sorted, s')
    /\ length sorted = length archiveFiles
    /\ pdf_io s' = pdf_io s
    /\ docCache s' = docCache s
    /\ docThumbCache s' = docThumbCache s.
Proof.
  intros Hglob Hcached. unfold serve, AllDocs. rewrite Hglob.
  unfold bind at 1. unfold log_Printf at 1.
  unfold bind at 1. unfold log_Printf at 1.
  unfold bind at 1. cbn [docCache docThumbCache logged pdf_io written].
  match goal with
  | |- context [parse_docs w archiveFiles [] ?s0] =>
      destruct (parse_docs_hits w archiveFiles s0 Hcached []) as [Hrun Hlen]
  end.
  rewrite Hrun. cbn [docCache docThumbCache logged pdf_io written] in *.
  simpl app. unfold bind, log_Printf, respond, ret. simpl.
  eexists _, _. split; [reflexivity|]. simpl.
  repeat split; try reflexivity.
  rewrite <- Hlen. symmetry. apply Permutation_length, sort_Sort_perm.
Qed.

Lemma AllDocs_of_cached_paths_witness :
  let s1 := snd (serve (@AllDocs insertion_sorter sound_world) initial) in
  exists sorted s',
    serve (@AllDocs insertion_sorter sound_world) s1 = (Done sorted, s')
    /\ length sorted = 3%nat
    /\ pdf_io s' = pdf_io s1.
Proof.
  intros s1.
  destruct (@AllDocs_of_cached_paths insertion_sorter sound_world s1
              ["/r/.h/q.pdf"; "/r/xy/2021_03_04_10_15_30_report.pdf";
               "/r/xy/a.pdf"])
    as (sorted & s' & Hrun & Hlen & Hio & _).
  - vm_compute. reflexivity.
  - repeat constructor; vm_compute; eauto.
  - exists sorted, s'. auto.
Defined.

(** X15.  A failure is not remembered: after [ProcessDocument] has
    returned an error for a path, the next call for the path extracts
    again, from the files as they then are, and returns the record as
    soon as the file can be read. *)
Theorem ProcessDocument_failure_is_retried
    (w w' : World) (p e : string) (s s1 : Server) :
  ProcessDocument w p s = (Done (Err e), s1) ->
  exists s2,
    ProcessDocument w' p s1 = (Done (extract w' p), s2)
    /\ pdf_io s2 = pdf_io s1 ++ extract_io w' p
    /\ forall d, extract w' p = Ok d -> docCache s2 !! fnv64a p = Some d.
Proof.
  intros Hrun.
  assert (Hmiss : docCache s1 !! fnv64a p = None).
  { destruct (docCache s !! fnv64a p) as [d|] eqn:Hc.
    - rewrite (ProcessDocument_hit w p s d Hc) in Hrun. discriminate.
    - destruct (ProcessDocument_miss w p s Hc) as (s' & Hrun' & Hcache & _).
      rewrite Hrun' in Hrun. injection Hrun as Hex <-.
      now rewrite Hcache, Hex. }
  destruct (ProcessDocument_miss w' p s1 Hmiss)
    as (s2 & Hrun2 & Hcache & _ & _ & _ & Hio).
  exists s2. split; [exact Hrun2|]. split; [exact Hio|].
  intros d Hd. rewrite Hcache, Hd. apply lookup_insert_eq.
Qed.

Lemma ProcessDocument_failure_is_retried_witness :
  let s1 := snd (ProcessDocument empty_world "/r/xy/a.pdf" initial) in
  exists s2,
    fst (ProcessDocument sample_world "/r/xy/a.pdf" s1)
      = Done (extract sample_world "/r/xy/a.pdf")
    /\ Name <$> docCache s2 !! fnv64a "/r/xy/a.pdf" = Some "a.pdf".
Proof.
  intros s1.
  destruct (ProcessDocument_failure_is_retried empty_world sample_world
              "/r/xy/a.pdf" "open /r/xy/a.pdf: no such file or directory"
              initial s1)
    as (s2 & Hrun & _ & Hcached); [vm_compute; reflexivity|].
  exists s2. split; [now rewrite Hrun|].
  assert (Hex : exists d, extract sample_world "/r/xy/a.pdf" = Ok d
                          /\ Name d = "a.pdf")
    by (vm_compute; eauto).
  destruct Hex as (d & Hd & Hname).
  now rewrite (Hcached d Hd), <- Hname.
Defined.
